(** * Peg solitaire A* solver: board, symmetries, heuristic and search

    Shallow embedding of [Tarea-1/peg_solitaire_astar/board.py] and
    [Tarea-1/peg_solitaire_astar/search.py].

    Python integers are unbounded, so states, indices and counters are [Z];
    [&], [|], [~] and [<<] are [Z.land], [Z.lor], [Z.lnot] and [Z.shiftl]
    (two's complement on negative numbers, as in Python).  Dictionaries are
    stdpp [gmap]s, Python lists are lists. *)

From Stdlib Require Import ZArith List Lia Bool Permutation.
From stdpp Require Import base option list gmap.
Import ListNotations.

#[local] Open Scope Z_scope.

(** ** Python helpers *)

(** [range(n)]. *)
Definition range (n : Z) : list Z := map Z.of_nat (seq 0 (Z.to_nat n)).

(** Truth value of [mask & (1 << i)] in a condition: the integer is non-zero. *)
Definition bit_on (mask i : Z) : bool :=
  negb (Z.land mask (Z.shiftl 1 i) =? 0).

(** Numbers that may be [float('inf')]: the heuristic and the keys built
    from it are an integer or infinity. *)
Inductive num : Type :=
| Fin (z : Z)
| Inf.

Definition num_eqb (a b : num) : bool :=
  match a, b with
  | Fin x, Fin y => x =? y
  | Inf, Inf => true
  | _, _ => false
  end.

Definition num_ltb (a b : num) : bool :=
  match a, b with
  | Fin x, Fin y => x <? y
  | Fin _, Inf => true
  | Inf, _ => false
  end.

Definition num_add (a b : num) : num :=
  match a, b with
  | Fin x, Fin y => Fin (x + y)
  | _, _ => Inf
  end.

Module Board.

(** *** Configuración del tablero *)

Definition N : Z := 7.
Definition CENTER : Z * Z := (3, 3).

Definition is_valid_cell (r c : Z) : bool :=
  if negb ((0 <=? r) && (r <? N) && ((0 <=? c) && (c <? N))) then false
  else if (r <? 2) && ((c <? 2) || (4 <? c)) then false
  else if (4 <? r) && ((c <? 2) || (4 <? c)) then false
  else true.

(** The module-level double loop that fills [IDX_TO_POS] and [POS_TO_IDX]
    together: one pass of its body for the cell [(r, c)]. *)
Definition topology_step (acc : list (Z * Z) * gmap (Z * Z) Z) (rc : Z * Z)
  : list (Z * Z) * gmap (Z * Z) Z :=
  let '(idx_to_pos, pos_to_idx) := acc in
  if is_valid_cell (fst rc) (snd rc)
  then (idx_to_pos ++ [rc], <[rc := Z.of_nat (length idx_to_pos)]> pos_to_idx)
  else acc.

Definition grid : list (Z * Z) :=
  flat_map (fun r => map (fun c => (r, c)) (range N)) (range N).

Definition topology : list (Z * Z) * gmap (Z * Z) Z :=
  fold_left topology_step grid ([], ∅).

Definition IDX_TO_POS : list (Z * Z) := Eval vm_compute in fst topology.
Definition POS_TO_IDX : gmap (Z * Z) Z := snd topology.

(** [CENTER_IDX = POS_TO_IDX[CENTER]]; the key is present, the default is
    never used. *)
Definition CENTER_IDX : Z := Eval vm_compute in default 0 (POS_TO_IDX !! CENTER).

(** *** Adyacencias y movimientos *)

Definition DIRS : list (Z * Z) := [(-1, 0); (1, 0); (0, -1); (0, 1)].

(** [POS_TO_IDX[(r, c)]] where the code has just tested [is_valid_cell]:
    a missing key would raise [KeyError], which is [None] here. *)
Definition pos_idx (r c : Z) : option Z := POS_TO_IDX !! (r, c).

Definition adj_of (rc : Z * Z) : list Z :=
  let '(r, c) := rc in
  flat_map (fun d : Z * Z =>
              let '(dr, dc) := d in
              let nr := r + dr in
              let nc := c + dc in
              if is_valid_cell nr nc
              then match pos_idx nr nc with Some j => [j] | None => [] end
              else [])
           DIRS.

Definition ADJ : list (list Z) := Eval vm_compute in map adj_of IDX_TO_POS.

Definition Move : Type := Z * Z * Z.

Definition moves_of (src_idx : Z) (rc : Z * Z) : list Move :=
  let '(src_r, src_c) := rc in
  flat_map (fun d : Z * Z =>
              let '(dr, dc) := d in
              let over_r := src_r + dr in
              let over_c := src_c + dc in
              let dst_r := src_r + 2 * dr in
              let dst_c := src_c + 2 * dc in
              if is_valid_cell over_r over_c && is_valid_cell dst_r dst_c
              then match pos_idx over_r over_c, pos_idx dst_r dst_c with
                   | Some over_idx, Some dst_idx => [(src_idx, over_idx, dst_idx)]
                   | _, _ => []
                   end
              else [])
           DIRS.

(** [enumerate(l)]. *)
Definition enumerate {A} (l : list A) : list (Z * A) :=
  combine (range (Z.of_nat (length l))) l.

Definition VALID_MOVES : list Move :=
  Eval vm_compute in
    flat_map (fun ip : Z * (Z * Z) => moves_of (fst ip) (snd ip)) (enumerate IDX_TO_POS).

(** *** Estado y operaciones *)

Definition initial_state : Z :=
  let state := Z.shiftl 1 (Z.of_nat (length IDX_TO_POS)) - 1 in
  Z.land state (Z.lnot (Z.shiftl 1 CENTER_IDX)).

Definition is_goal (state : Z) : bool := state =? Z.shiftl 1 CENTER_IDX.

(** [int.bit_count()]: the number of ones in the binary representation of
    the absolute value. *)
Fixpoint pos_popcount (p : positive) : Z :=
  match p with
  | xH => 1
  | xO q => pos_popcount q
  | xI q => 1 + pos_popcount q
  end.

Definition popcount (state : Z) : Z :=
  match state with
  | Z0 => 0
  | Zpos p => pos_popcount p
  | Zneg p => pos_popcount p
  end.

Definition is_legal (state : Z) (m : Move) : bool :=
  let '(src_idx, over_idx, dst_idx) := m in
  bit_on state src_idx && bit_on state over_idx && negb (bit_on state dst_idx).

Definition get_valid_moves_fast (state : Z) : list Move :=
  List.filter (is_legal state) VALID_MOVES.

Definition apply_move_fast (state : Z) (move : Move) : Z :=
  let '(src_idx, over_idx, dst_idx) := move in
  Z.lor (Z.land (Z.land state (Z.lnot (Z.shiftl 1 src_idx)))
                (Z.lnot (Z.shiftl 1 over_idx)))
        (Z.shiftl 1 dst_idx).

(** *** Helpers y visualización *)

Definition bit_clear (mask bit : Z) : Z := Z.land mask (Z.lnot (Z.shiftl 1 bit)).

Definition bit_set (mask bit : Z) : Z := Z.lor mask (Z.shiftl 1 bit).

End Board.

Module Search.
Import Board.

(** *** Simetrías D4 *)

Definition sym_map (sym : Z) (rc : Z * Z) : Z * Z :=
  let '(r, c) := rc in
  if sym =? 0 then (r, c)
  else if sym =? 1 then (c, N - 1 - r)
  else if sym =? 2 then (N - 1 - r, N - 1 - c)
  else if sym =? 3 then (N - 1 - c, r)
  else if sym =? 4 then (r, N - 1 - c)
  else if sym =? 5 then (N - 1 - r, c)
  else if sym =? 6 then (c, r)
  else (N - 1 - c, N - 1 - r).

(** First loop of [apply_symmetry]: the coordinates of the occupied cells.
    [IDX_TO_POS[i]] cannot raise [IndexError], [i] ranges over the indices
    of the list. *)
Definition pieces_of (state : Z) : list (Z * Z) :=
  flat_map (fun i => if bit_on state i
                     then match IDX_TO_POS !! Z.to_nat i with
                          | Some rc => [rc]
                          | None => []
                          end
                     else [])
           (range (Z.of_nat (length IDX_TO_POS))).

(** Second loop: transform, keep the images that are valid cells. *)
Definition transform_pieces (sym : Z) (pieces : list (Z * Z)) : list (Z * Z) :=
  flat_map (fun rc => let '(nr, nc) := sym_map sym rc in
                      if is_valid_cell nr nc then [(nr, nc)] else [])
           pieces.

(** Third loop: [if (nr, nc) in POS_TO_IDX: new_state |= 1 << POS_TO_IDX[(nr, nc)]]. *)
Definition encode_pieces (new_pieces : list (Z * Z)) : Z :=
  fold_left (fun new_state rc =>
               match POS_TO_IDX !! rc with
               | Some j => Z.lor new_state (Z.shiftl 1 j)
               | None => new_state
               end)
            new_pieces 0.

Definition apply_symmetry (state sym : Z) : Z :=
  encode_pieces (transform_pieces sym (pieces_of state)).

Definition canonicalize (state : Z) : Z :=
  fold_left (fun canonical sym =>
               let candidate := apply_symmetry state sym in
               if candidate <? canonical then candidate else canonical)
            (range 8) state.

(** *** Heurística avanzada *)

Definition manhattan_to_center (idx : Z) : Z :=
  match IDX_TO_POS !! Z.to_nat idx with
  | Some (r, c) => Z.abs (r - fst CENTER) + Z.abs (c - snd CENTER)
  | None => 0 (* IndexError; every caller passes an index of the list *)
  end.

(** The adjacency list that [connected_components] rebuilds on each call. *)
Definition ADJ : list (list Z) := Eval vm_compute in map adj_of IDX_TO_POS.

Definition visited_at (visited : list bool) (i : Z) : bool :=
  default false (visited !! Z.to_nat i).

(** The [for neighbor in ADJ[current]] loop of the breadth-first search. *)
Definition visit_neighbors (state : Z) (current : Z)
    (vq : list bool * list Z) : list bool * list Z :=
  fold_left (fun (vq : list bool * list Z) neighbor =>
               let '(visited, queue) := vq in
               if bit_on state neighbor && negb (visited_at visited neighbor)
               then (<[Z.to_nat neighbor := true]> visited, queue ++ [neighbor])
               else vq)
            (default [] (ADJ !! Z.to_nat current)) vq.

(** [while queue:] of the breadth-first search.  Every pass removes one
    index from the queue and an index enters the queue only when its
    [visited] flag goes from false to true, so twice the number of cells
    plus the length of the queue bounds the number of passes; the fuel given
    by [connected_components] is above that bound (lemma [bfs_enough_fuel]
    below). *)
Fixpoint bfs (fuel : nat) (state : Z) (visited : list bool) (queue : list Z)
  : list bool :=
  match fuel with
  | O => visited
  | S fuel' =>
      match queue with
      | [] => visited
      | current :: queue' =>
          let '(visited', queue'') := visit_neighbors state current (visited, queue') in
          bfs fuel' state visited' queue''
      end
  end.

Definition connected_components (state : Z) : Z :=
  let n := length IDX_TO_POS in
  snd (fold_left (fun (vc : list bool * Z) i =>
                    let '(visited, components) := vc in
                    if bit_on state i && negb (visited_at visited i)
                    then (bfs (2 * n + 2) state (<[Z.to_nat i := true]> visited) [i],
                          components + 1)
                    else vc)
                 (range (Z.of_nat n)) (repeat false n, 0)).

Definition num_min (a : num) (b : Z) : num :=
  match a with
  | Inf => Fin b
  | Fin x => Fin (Z.min x b)
  end.

Definition occupied_neighbors (state : Z) (rc : Z * Z) : Z :=
  let '(r, c) := rc in
  fold_left (fun neighbors (d : Z * Z) =>
               let '(dr, dc) := d in
               let nr := r + dr in
               let nc := c + dc in
               if is_valid_cell nr nc
                  && match pos_idx nr nc with
                     | Some j => bit_on state j
                     | None => false
                     end
               then neighbors + 1 else neighbors)
            DIRS 0.

Definition heuristic_advanced (state : Z) : num :=
  let num_pieces := popcount state in
  if num_pieces <=? 1 then (if is_goal state then Fin 0 else Inf)
  else
    let h1 := num_pieces - 1 in
    let min_dist :=
      fold_left (fun min_dist i =>
                   if bit_on state i then num_min min_dist (manhattan_to_center i)
                   else min_dist)
                (range (Z.of_nat (length IDX_TO_POS))) Inf in
    let h2 := match min_dist with Fin d => (d + 1) / 2 | Inf => 0 end in
    let comps := connected_components state in
    let h3 := Z.max 0 (comps - 1) in
    let isolated_penalty :=
      fold_left (fun isolated_penalty (ip : Z * (Z * Z)) =>
                   let '(i, rc) := ip in
                   if bit_on state i
                   then if occupied_neighbors state rc <=? 1
                        then isolated_penalty + 1 else isolated_penalty
                   else isolated_penalty)
                (enumerate IDX_TO_POS) 0 in
    let h4 := isolated_penalty / 3 in
    Fin (Z.max (Z.max (Z.max h1 h2) h3) h4).

(** *** Búsqueda A* *)

(** A frontier entry: the tuple
    [(f, tiebreak, g, canonical_state, original_state)]. *)
Definition entry : Type := num * num * Z * Z * Z.

(** Python's [<] on two such tuples: the first position where they differ
    decides. *)
Definition entry_ltb (a b : entry) : bool :=
  let '(f1, t1, g1, c1, s1) := a in
  let '(f2, t2, g2, c2, s2) := b in
  if negb (num_eqb f1 f2) then num_ltb f1 f2
  else if negb (num_eqb t1 t2) then num_ltb t1 t2
  else if negb (g1 =? g2) then g1 <? g2
  else if negb (c1 =? c2) then c1 <? c2
  else s1 <? s2.

(** [heapq] is Python's library, not code of the repository; it is modelled
    by its contract.  The frontier is the list of its entries in ascending
    order: [heappush] inserts the entry after the entries that are not
    greater, [heappop] removes the first one, a least entry (lemmas
    [heappush_least_first] and [heappop_least] below).  Two entries that
    compare equal are the same tuple, so which least entry is popped cannot
    be observed. *)
Fixpoint heappush (heap : list entry) (e : entry) : list entry :=
  match heap with
  | [] => [e]
  | x :: heap' => if entry_ltb e x then e :: heap else x :: heappush heap' e
  end.

Definition heappop (heap : list entry) : option (entry * list entry) :=
  match heap with
  | [] => None
  | x :: heap' => Some (x, heap')
  end.

Inductive Status : Type := success | timeout | max_nodes_exceeded | exhausted.

(** The statistics dictionary.  ["best_pieces"] is present in the three
    failure reports, ["moves"] and ["final_pieces"] in the success report. *)
Record Stats : Type := mkStats {
  status : Status;
  expanded : Z;
  generated : Z;
  elapsed_sec : Z;
  best_pieces : option Z;
  moves : option Z;
  final_pieces : option Z
}.

(** The local variables of [astar_solve] that live across loop passes.
    [pushed] is a history variable that the code does not have: every entry
    put in the frontier so far, latest first.  Nothing reads it. *)
Record SearchState : Type := mkSearch {
  open_set : list entry;
  g_score : gmap Z Z;
  came_from : gmap Z (Z * option Move);
  nodes_expanded : Z;
  nodes_generated : Z;
  tie_breaker : Z;
  best_num_pieces : Z;
  pushed : list entry
}.

(** [g_score.get(key, float('inf'))]. *)
Definition g_score_get (g_score : gmap Z Z) (key : Z) : num :=
  match g_score !! key with
  | Some g => Fin g
  | None => Inf
  end.

(** [while cur in came_from: cur, mv = came_from[cur]; ...].  [None] when
    the fuel runs out. *)
Fixpoint walk_back (fuel : nat) (came_from : gmap Z (Z * option Move))
    (cur : Z) (path : list Move) : option (list Move) :=
  match came_from !! cur with
  | None => Some path
  | Some (prev, mv) =>
      match fuel with
      | O => None
      | S fuel' =>
          walk_back fuel' came_from prev
                    (match mv with Some m => path ++ [m] | None => path end)
      end
  end.

(** Path reconstruction, [path.reverse()] included.  A walk of more passes
    than the dictionary has keys has met a key twice and never ends, so the
    fuel [S (size came_from)] loses nothing: the result is [None] exactly
    when the Python loop does not terminate. *)
Definition reconstruct_path (came_from : gmap Z (Z * option Move))
    (original_state : Z) : option (list Move) :=
  option_map (@rev Move) (walk_back (S (size came_from)) came_from original_state []).

Section Engine.

(** The four functions of [board.py] and of this module that the loop calls
    for the successors of a state.  [astar_solve] below passes
    [canonicalize], [heuristic_advanced], [get_valid_moves_fast] and
    [apply_move_fast]. *)
Variable canonicalize_fn : Z -> Z.
Variable heuristic_fn : Z -> num.
Variable get_valid_moves_fn : Z -> list Move.
Variable apply_move_fn : Z -> Move -> Z.

Variable use_symmetry : bool.

(** Body of [for move in get_valid_moves_fast(original_state)]. *)
Definition relax (original_state current_g : Z) (s : SearchState) (move : Move)
  : SearchState :=
  let neighbor := apply_move_fn original_state move in
  let neighbor_canonical :=
    if use_symmetry then canonicalize_fn neighbor else neighbor in
  let tentative_g := current_g + 1 in
  if num_ltb (Fin tentative_g) (g_score_get (g_score s) neighbor_canonical)
  then
    let h := heuristic_fn neighbor in
    let f := num_add (Fin tentative_g) h in
    let tie_breaker' := tie_breaker s + 1 in
    let tie_value :=
      num_add (num_add (Fin (Z.shiftl (popcount neighbor) 16)) h)
              (Fin (Z.land tie_breaker' 65535)) in
    let e : entry := (f, tie_value, tentative_g, neighbor_canonical, neighbor) in
    {| open_set := heappush (open_set s) e;
       g_score := <[neighbor_canonical := tentative_g]> (g_score s);
       came_from := <[neighbor := (original_state, Some move)]> (came_from s);
       nodes_expanded := nodes_expanded s;
       nodes_generated := nodes_generated s + 1;
       tie_breaker := tie_breaker';
       best_num_pieces := best_num_pieces s;
       pushed := e :: pushed s |}
  else s.

(** What one pass of the [while] loop does. *)
Inductive Outcome : Type :=
| Continue (s : SearchState)
| Return (r : option (list Move) * Stats)
| Hang.

Definition failure (st : Status) (elapsed : Z) (s : SearchState)
  : option (list Move) * Stats :=
  (None, {| status := st;
            expanded := nodes_expanded s;
            generated := nodes_generated s;
            elapsed_sec := elapsed;
            best_pieces := Some (best_num_pieces s);
            moves := None;
            final_pieces := None |}).

(** The part of a pass after the two resource checks: pop, staleness check,
    goal test, successors. *)
Definition expand (elapsed : Z) (s : SearchState) (e : entry) (rest : list entry)
  : Outcome :=
  let '(current_f, _, current_g, canonical_state, original_state) := e in
  if num_ltb (g_score_get (g_score s) canonical_state) (Fin current_g)
  then Continue {| open_set := rest;
                   g_score := g_score s;
                   came_from := came_from s;
                   nodes_expanded := nodes_expanded s;
                   nodes_generated := nodes_generated s;
                   tie_breaker := tie_breaker s;
                   best_num_pieces := best_num_pieces s;
                   pushed := pushed s |}
  else
    let nodes_expanded' := nodes_expanded s + 1 in
    if is_goal original_state then
      match reconstruct_path (came_from s) original_state with
      | None => Hang
      | Some path =>
          Return (Some path,
                  {| status := success;
                     expanded := nodes_expanded';
                     generated := nodes_generated s;
                     elapsed_sec := elapsed;
                     best_pieces := None;
                     moves := Some (Z.of_nat (length path));
                     final_pieces := Some (popcount original_state) |})
      end
    else
      let cur_pieces := popcount original_state in
      let best := if cur_pieces <? best_num_pieces s
                  then cur_pieces else best_num_pieces s in
      Continue
        (fold_left (relax original_state current_g)
                   (get_valid_moves_fn original_state)
                   {| open_set := rest;
                      g_score := g_score s;
                      came_from := came_from s;
                      nodes_expanded := nodes_expanded';
                      nodes_generated := nodes_generated s;
                      tie_breaker := tie_breaker s;
                      best_num_pieces := best;
                      pushed := pushed s |}).

(** One evaluation of the loop condition and, when it holds, one pass of the
    body.  [elapsed] is the clock reading of this pass minus [start_time]
    (the reading of the final [time.time()] when the frontier is empty). *)
Definition iteration (time_limit_sec max_nodes : Z) (elapsed : Z) (s : SearchState)
  : Outcome :=
  match heappop (open_set s) with
  | None => Return (failure exhausted elapsed s)
  | Some (e, rest) =>
      if time_limit_sec <? elapsed then Return (failure timeout elapsed s)
      else if max_nodes <? nodes_expanded s
           then Return (failure max_nodes_exceeded elapsed s)
           else expand elapsed s e rest
  end.

(** The [while open_set:] loop.  [clock k] is the [k]-th reading of
    [time.time()], [clock 0] being [start_time]; pass [k] reads [clock k].
    [None]: the fuel ran out, or path reconstruction does not terminate. *)
Fixpoint astar_loop (fuel : nat) (clock : nat -> Z) (time_limit_sec max_nodes : Z)
    (k : nat) (s : SearchState) : option (option (list Move) * Stats) :=
  match fuel with
  | O => None
  | S fuel' =>
      match iteration time_limit_sec max_nodes (clock k - clock O) s with
      | Continue s' => astar_loop fuel' clock time_limit_sec max_nodes (S k) s'
      | Return r => Some r
      | Hang => None
      end
  end.

(** The variables after the first [n] passes from pass [k] on, or when the
    loop left before that: the state in which the last of these passes
    started. *)
Fixpoint astar_trace (n : nat) (clock : nat -> Z) (time_limit_sec max_nodes : Z)
    (k : nat) (s : SearchState) : SearchState :=
  match n with
  | O => s
  | S n' =>
      match iteration time_limit_sec max_nodes (clock k - clock O) s with
      | Continue s' => astar_trace n' clock time_limit_sec max_nodes (S k) s'
      | _ => s
      end
  end.

(** The state of the variables when the loop is first entered. *)
Definition init_search : SearchState :=
  let start_state := initial_state in
  let start_canonical :=
    if use_symmetry then canonicalize_fn start_state else start_state in
  let e : entry := (heuristic_fn start_state, Fin 0, 0, start_canonical, start_state) in
  {| open_set := [e];
     g_score := {[ start_canonical := 0 ]};
     came_from := ∅;
     nodes_expanded := 0;
     nodes_generated := 1;
     tie_breaker := 0;
     best_num_pieces := popcount start_state;
     pushed := [e] |}.

End Engine.

(** [astar_solve(time_limit_sec, greedy_bias, use_symmetry, max_nodes)].
    [greedy_bias] is accepted and not used, as in the code.  The clock is
    the only input from outside: readings of [time.time()] in a fixed unit. *)
Definition astar_solve (fuel : nat) (clock : nat -> Z)
    (time_limit_sec : Z) (greedy_bias use_symmetry : bool) (max_nodes : Z)
  : option (option (list Move) * Stats) :=
  astar_loop canonicalize heuristic_advanced get_valid_moves_fast apply_move_fast
             use_symmetry fuel clock time_limit_sec max_nodes 1
             (init_search canonicalize heuristic_advanced use_symmetry).

(** The local variables of that call after [n] passes of its loop (or when
    the loop left, if it did within [n] passes). *)
Definition astar_solve_state (n : nat) (clock : nat -> Z)
    (time_limit_sec : Z) (greedy_bias use_symmetry : bool) (max_nodes : Z)
  : SearchState :=
  astar_trace canonicalize heuristic_advanced get_valid_moves_fast apply_move_fast
              use_symmetry n clock time_limit_sec max_nodes 1
              (init_search canonicalize heuristic_advanced use_symmetry).

Definition move_eqb (m m' : Move) : bool :=
  let '(a, b, c) := m in
  let '(a', b', c') := m' in
  (a =? a') && (b =? b') && (c =? c').

(** Playing a move sequence from a state; [None] as soon as a move is not
    among the legal moves of the state it is applied to. *)
Fixpoint play (state : Z) (path : list Move) : option Z :=
  match path with
  | [] => Some state
  | move :: path' =>
      if existsb (move_eqb move) (get_valid_moves_fast state)
      then play (apply_move_fast state move) path'
      else None
  end.

End Search.

(** ** The runner, [run_peg_astar.py] *)

Module Runner.
Import Board.

Definition _is_valid_cell (r c : Z) : bool :=
  if negb ((0 <=? r) && (r <? 7) && ((0 <=? c) && (c <? 7))) then false
  else if ((r <? 2) || (4 <? r)) && ((c <? 2) || (4 <? c)) then false
  else true.

(** [_mid(a, b)], with Python's floor division. *)
Definition _mid (a b : Z * Z) : Z * Z :=
  ((fst a + fst b) / 2, (snd a + snd b) / 2).

(** The board that [main] shows after each move of the path: the loop
    [for mv in path] updates [state] with [bit_clear], [bit_clear] and
    [bit_set].  The list holds the states after the first, second, ... move. *)
Definition shown_step (state : Z) (mv : Move) : Z :=
  let '(src_idx, over_idx, dst_idx) := mv in
  let state := bit_clear state src_idx in
  let state := bit_clear state over_idx in
  bit_set state dst_idx.

Fixpoint shown_boards (state : Z) (path : list Move) : list Z :=
  match path with
  | [] => []
  | mv :: path' =>
      let state' := shown_step state mv in
      state' :: shown_boards state' path'
  end.

End Runner.
(** * Derived tables and evaluation twins *)

Import Board Search.

(** Indices of a catalogue move: in range and pairwise different. *)
Definition move_well_formed (m : Move) : bool :=
  let '(a, b, c) := m in
  (0 <=? a) && (a <? 33) && (0 <=? b) && (b <? 33) && (0 <=? c) && (c <? 33)
  && negb (a =? b) && negb (a =? c) && negb (b =? c).


(** *** The symmetries as permutations of the cell indices *)

(** The index that [apply_symmetry] gives the cell of index [i] under
    transform [sym]; [None] when the cell is dropped. *)
Definition sym_target (sym i : Z) : option Z :=
  match IDX_TO_POS !! Z.to_nat i with
  | Some rc => let '(nr, nc) := sym_map sym rc in
               if is_valid_cell nr nc then POS_TO_IDX !! (nr, nc) else None
  | None => None
  end.

Definition lor_bit (acc j : Z) : Z := Z.lor acc (Z.shiftl 1 j).

(** The bitmask with exactly the bits of a list of indices. *)
Definition set_bits (l : list Z) : Z := fold_left lor_bit l 0.

(** Indices of the occupied cells, ascending. *)
Definition occupied (state : Z) : list Z := List.filter (bit_on state) (range 33).

Definition targets (sym : Z) (l : list Z) : list Z :=
  flat_map (fun i => match sym_target sym i with Some j => [j] | None => [] end) l.

Definition SYM_PERM : list (list Z) :=
  Eval vm_compute in
    map (fun k => map (fun i => default 0 (sym_target k i)) (range 33)) (range 8).

Definition sym_perm (k i : Z) : Z :=
  nth (Z.to_nat i) (nth (Z.to_nat k) SYM_PERM []) 0.

(** Index of the transform "first [k], then [j]": the table is found by
    comparing permutations. *)
Definition SYM_COMPOSE : list (list Z) :=
  Eval vm_compute in
    map (fun j => map (fun k =>
           default 0 (List.find (fun m => forallb (fun i => sym_perm m i =? sym_perm j (sym_perm k i))
                                                  (range 33))
                                (range 8)))
         (range 8)) (range 8).

Definition sym_compose (j k : Z) : Z :=
  nth (Z.to_nat k) (nth (Z.to_nat j) SYM_COMPOSE []) 0.

(** Index of the transform [j] with [sym_compose j k = m]. *)
Definition SYM_DIV : list (list Z) :=
  Eval vm_compute in
    map (fun m => map (fun k =>
           default 0 (List.find (fun j => sym_compose j k =? m) (range 8)))
         (range 8)) (range 8).

Definition sym_div (m k : Z) : Z :=
  nth (Z.to_nat k) (nth (Z.to_nat m) SYM_DIV []) 0.

(** The eight images of a state. *)
Definition images (state : Z) : list Z := map (apply_symmetry state) (range 8).

(** *** States of the search loop *)

(** The state in which the successors of an expanded entry are generated. *)
Definition expanding (s : SearchState) (rest : list entry) (original_state : Z)
  : SearchState :=
  {| open_set := rest;
     g_score := g_score s;
     came_from := came_from s;
     nodes_expanded := nodes_expanded s + 1;
     nodes_generated := nodes_generated s;
     tie_breaker := tie_breaker s;
     best_num_pieces :=
       if popcount original_state <? best_num_pieces s
       then popcount original_state else best_num_pieces s;
     pushed := pushed s |}.

(** The state after a stale entry was discarded. *)
Definition discarding (s : SearchState) (rest : list entry) : SearchState :=
  {| open_set := rest;
     g_score := g_score s;
     came_from := came_from s;
     nodes_expanded := nodes_expanded s;
     nodes_generated := nodes_generated s;
     tie_breaker := tie_breaker s;
     best_num_pieces := best_num_pieces s;
     pushed := pushed s |}.

(** Every expansion took its entry from the frontier, and every entry of
    the frontier was counted as generated. *)
Definition counters_ok (s : SearchState) : Prop :=
  nodes_expanded s + Z.of_nat (length (open_set s)) <= nodes_generated s.

(** The concrete state of a frontier entry. *)
Definition entry_state (e : entry) : Z := snd e.

(** A state is linked when it is the initial state or has a provenance
    entry. *)
Definition linked (came_from : gmap Z (Z * option Move)) (st : Z) : Prop :=
  st = initial_state \/ is_Some (came_from !! st).

(** Frontier states are linked, and a provenance entry records a legal move
    from a linked state to its key. *)
Definition path_inv (s : SearchState) : Prop :=
  (forall e, In e (open_set s) -> linked (came_from s) (entry_state e)) /\
  (forall k p mv, came_from s !! k = Some (p, mv) ->
     exists m, mv = Some m /\ In m (get_valid_moves_fast p) /\
               apply_move_fast p m = k /\ linked (came_from s) p).

(** *** Passes without the resource checks *)

Section Steps.

Variable canonicalize_fn : Z -> Z.
Variable heuristic_fn : Z -> num.
Variable get_valid_moves_fn : Z -> list Move.
Variable apply_move_fn : Z -> Move -> Z.
Variable use_symmetry : bool.

(** The state after one more pass, when the pass neither stops at a resource
    check nor returns. *)
Definition step (s : SearchState) : option SearchState :=
  match open_set s with
  | [] => None
  | e :: rest =>
      match expand canonicalize_fn heuristic_fn get_valid_moves_fn apply_move_fn
                   use_symmetry 0 s e rest with
      | Continue s' => Some s'
      | _ => None
      end
  end.

Fixpoint steps (n : nat) (s : SearchState) : option SearchState :=
  match n with
  | O => Some s
  | S n' => match step s with
            | Some s' => steps n' s'
            | None => None
            end
  end.

End Steps.

(** The passes of [astar_solve] itself. *)
Definition solve_init (use_symmetry : bool) : SearchState :=
  init_search canonicalize heuristic_advanced use_symmetry.

Definition solve_step (use_symmetry : bool) : SearchState -> option SearchState :=
  step canonicalize heuristic_advanced get_valid_moves_fast apply_move_fast use_symmetry.

Definition solve_steps (use_symmetry : bool) : nat -> SearchState -> option SearchState :=
  steps canonicalize heuristic_advanced get_valid_moves_fast apply_move_fast use_symmetry.

Definition solve_iteration (use_symmetry : bool)
  : Z -> Z -> Z -> SearchState -> Outcome :=
  iteration canonicalize heuristic_advanced get_valid_moves_fast apply_move_fast
            use_symmetry.

(** A clock that passes the time check of the first pass and is beyond the
    5-unit budget at the second one. *)
Definition late_clock (k : nat) : Z :=
  match k with
  | O => 0
  | S O => 1
  | _ => 10
  end.

(** *** Evaluation twins

    Functions that compute the same results as [canonicalize],
    [heuristic_advanced], [get_valid_moves_fast] and [apply_move_fast] with
    less work, from tables computed once.  They are used only to evaluate
    complete runs of the search; the facts below prove them equal to the
    functions of the code. *)

(** The elements of a list at the positions of the ones of [p], lowest
    binary digit first. *)
Fixpoint select {A} (p : positive) (l : list A) {struct l} : list A :=
  match l with
  | [] => []
  | x :: l' =>
      match p with
      | xH => [x]
      | xO q => select q l'
      | xI q => x :: select q l'
      end
  end.

(** The bitwise or of the masks at the positions of the ones of [p]. *)
Fixpoint permute_bits (p : positive) (masks : list Z) (acc : Z) {struct masks} : Z :=
  match masks with
  | [] => acc
  | m :: masks' =>
      match p with
      | xH => Z.lor acc m
      | xO q => permute_bits q masks' acc
      | xI q => permute_bits q masks' (Z.lor acc m)
      end
  end.

Definition sym_masks (k : Z) : list Z :=
  map (fun i => Z.shiftl 1 (sym_perm k i)) (range 33).

Definition SYM_MASKS : list (list Z) := Eval vm_compute in map sym_masks (range 8).

Definition canonicalize_fast (state : Z) : Z :=
  match state with
  | Zpos p =>
      fold_left (fun canonical masks =>
                   let candidate := permute_bits p masks 0 in
                   if candidate <? canonical then candidate else canonical)
                SYM_MASKS state
  | _ => canonicalize state
  end.

(** With three pegs or more on the board the maximum of the four estimates
    is the first one. *)
Definition heuristic_fast (state : Z) : num :=
  if (0 <=? state) && (state <? 8589934592) && (3 <=? popcount state)
  then Fin (popcount state - 1)
  else heuristic_advanced state.

Definition move_test_mask (m : Move) : Z :=
  let '(a, b, c) := m in Z.lor (Z.lor (Z.shiftl 1 a) (Z.shiftl 1 b)) (Z.shiftl 1 c).

Definition move_need_mask (m : Move) : Z :=
  let '(a, b, c) := m in Z.lor (Z.shiftl 1 a) (Z.shiftl 1 b).

Definition MOVE_MASKS : list (Move * (Z * Z)) :=
  Eval vm_compute in map (fun m => (m, (move_test_mask m, move_need_mask m))) VALID_MOVES.

Definition get_valid_moves_masked (state : Z) : list Move :=
  map fst (List.filter (fun t : Move * (Z * Z) =>
                          Z.land state (fst (snd t)) =? snd (snd t))
                       MOVE_MASKS).

Definition move_code (m : Move) : Z := let '(a, _, c) := m in a * 64 + c.

Definition move_delta (m : Move) : Z :=
  let '(a, b, c) := m in Z.shiftl 1 c - Z.shiftl 1 a - Z.shiftl 1 b.

Definition MOVE_DELTAS : gmap Z Z :=
  Eval vm_compute in
    fold_left (fun (t : gmap Z Z) m => <[move_code m := move_delta m]> t) VALID_MOVES ∅.

Definition apply_move_table (state : Z) (m : Move) : Z :=
  match MOVE_DELTAS !! move_code m with
  | Some d => state + d
  | None => apply_move_fast state m
  end.

Definition fast_init (use_symmetry : bool) : SearchState :=
  init_search canonicalize_fast heuristic_fast use_symmetry.

Definition fast_step (use_symmetry : bool) : SearchState -> option SearchState :=
  step canonicalize_fast heuristic_fast get_valid_moves_masked apply_move_table
       use_symmetry.

Definition fast_steps (use_symmetry : bool) : nat -> SearchState -> option SearchState :=
  steps canonicalize_fast heuristic_fast get_valid_moves_masked apply_move_table
        use_symmetry.

(** *** Priority keys *)

(** The [(f, tie-break)] pair of a frontier entry. *)
Definition entry_key (e : entry) : num * num :=
  let '(f, tie, _, _, _) := e in (f, tie).

Definition num_code (a : num) : option Z :=
  match a with
  | Fin z => Some z
  | Inf => None
  end.

Definition key_code (e : entry) : option Z * option Z :=
  (num_code (fst (entry_key e)), num_code (snd (entry_key e))).

(** No key of the list is in [seen] or occurs twice in the list. *)
Fixpoint distinct_keys (seen : gmap (option Z * option Z) unit) (l : list entry) : bool :=
  match l with
  | [] => true
  | e :: l' =>
      match seen !! key_code e with
      | Some _ => false
      | None => distinct_keys (<[key_code e := tt]> seen) l'
      end
  end.

(** Python's [<] on the [(f, tie-break, g)] prefixes of two entries. *)
Definition key_ltb (a b : entry) : bool :=
  let '(f1, t1, g1, _, _) := a in
  let '(f2, t2, g2, _, _) := b in
  if negb (num_eqb f1 f2) then num_ltb f1 f2
  else if negb (num_eqb t1 t2) then num_ltb t1 t2
  else g1 <? g2.

Fixpoint path_eqb (p q : list Move) : bool :=
  match p, q with
  | [], [] => true
  | m :: p', m' :: q' => move_eqb m m' && path_eqb p' q'
  | _, _ => false
  end.

(** The path that the search finds, with and without symmetry folding. *)
Definition SOLUTION : list Move :=
  [(4, 9, 16); (7, 8, 9); (0, 3, 8); (2, 1, 0); (9, 8, 7); (6, 7, 8);
   (10, 5, 2); (12, 11, 10); (15, 8, 3); (0, 3, 8); (13, 14, 15); (15, 8, 3);
   (17, 10, 5); (2, 5, 10); (19, 18, 17); (17, 10, 5); (27, 22, 15);
   (20, 21, 22); (22, 15, 8); (3, 8, 15); (15, 16, 17); (24, 17, 10);
   (5, 10, 17); (26, 25, 24); (23, 24, 25); (32, 29, 24); (17, 24, 29);
   (30, 31, 32); (32, 29, 24); (25, 24, 23); (28, 23, 16)].

(** Number of passes that continue, with and without symmetry folding. *)
Definition run_length (use_symmetry : bool) : nat :=
  Z.to_nat (if use_symmetry then 8989 else 10839).

Definition run_generated (use_symmetry : bool) : Z :=
  if use_symmetry then 9091 else 10955.

(** A complete run without resource checks, evaluated with the twins: after
    [run_length] passes the next pass returns [SOLUTION], and the keys
    pushed up to then are pairwise different. *)
Definition complete_run (use_symmetry : bool) : bool :=
  match fast_steps use_symmetry (run_length use_symmetry) (fast_init use_symmetry) with
  | Some s =>
      distinct_keys ∅ (pushed s)
      && (nodes_expanded s =? Z.of_nat (run_length use_symmetry))
      && (nodes_generated s =? run_generated use_symmetry)
      && match open_set s with
         | e :: rest =>
             match expand canonicalize_fast heuristic_fast get_valid_moves_masked
                          apply_move_table use_symmetry 0 s e rest with
             | Return (Some p, _) => path_eqb p SOLUTION
             | _ => false
             end
         | [] => false
         end
  | None => false
  end.

Definition small_dist (a : num) : Prop :=
  match a with
  | Inf => True
  | Fin d => d <= 4
  end.

(** The tie-break value that [astar_solve] builds for the entry of the
    [i]-th push. *)
Definition built_tie (heuristic_fn : Z -> num) (i : Z) (e : entry) : Prop :=
  let '(_, tie, _, _, st) := e in
  tie = num_add (num_add (Fin (Z.shiftl (popcount st) 16)) (heuristic_fn st))
                (Fin (Z.land i 65535)).

(** Every entry of a push history (latest first) but the initial one carries
    the tie-break value built from its position in the history. *)
Fixpoint ties_built (heuristic_fn : Z -> num) (l : list entry) : Prop :=
  match l with
  | [] => True
  | e :: l' =>
      (l' = [] \/ built_tie heuristic_fn (Z.of_nat (length l')) e)
      /\ ties_built heuristic_fn l'
  end.

(** The push counter counts the pushes, the frontier holds pushed entries
    only, and the tie-break values are built from the counter. *)
Definition log_ok (heuristic_fn : Z -> num) (s : SearchState) : Prop :=
  tie_breaker s + 1 = Z.of_nat (length (pushed s)) /\
  (forall e, In e (open_set s) -> In e (pushed s)) /\
  ties_built heuristic_fn (pushed s).

(** The success report of a complete run. *)
Definition success_stats (use_symmetry : bool) (elapsed : Z) : Stats :=
  {| status := success;
     expanded := Z.of_nat (run_length use_symmetry) + 1;
     generated := run_generated use_symmetry;
     elapsed_sec := elapsed;
     best_pieces := None;
     moves := Some 31;
     final_pieces := Some 1 |}.

(** Cells not yet visited, and what is left to do in a breadth-first
    search: two units per unvisited cell and one per queued index. *)
Definition count_false (visited : list bool) : nat := length (List.filter negb visited).

Definition bfs_measure (visited : list bool) (queue : list Z) : nat :=
  2 * count_false visited + length queue.

(** *** The frontier as a priority queue *)

(** Python's [<] on two sequences of numbers of the same length. *)
Fixpoint lex_ltb (l1 l2 : list num) : bool :=
  match l1, l2 with
  | a :: l1', b :: l2' => if negb (num_eqb a b) then num_ltb a b else lex_ltb l1' l2'
  | _, _ => false
  end.

Definition entry_nums (e : entry) : list num :=
  let '(f, t, g, c, s) := e in [f; t; Fin g; Fin c; Fin s].

(** No entry of the list is less than an entry before it. *)
Fixpoint least_first (heap : list entry) : Prop :=
  match heap with
  | [] => True
  | x :: heap' => (forall y, In y heap' -> entry_ltb y x = false) /\ least_first heap'
  end.

(** *** Definitions for the further properties *)

(** The transform that undoes transform [k]: the two quarter turns undo
    each other, every other transform undoes itself. *)
Definition sym_inverse (k : Z) : Z :=
  if k =? 1 then 3 else if k =? 3 then 1 else k.

(** The image of a move under transform [k]. *)
Definition move_image (k : Z) (m : Move) : Move :=
  let '(a, b, c) := m in (sym_perm k a, sym_perm k b, sym_perm k c).

(** The least distance to the centre among the occupied cells, as
    [heuristic_advanced] computes it for H2. *)
Definition min_dist_of (state : Z) : num :=
  fold_left (fun min_dist i =>
               if bit_on state i then num_min min_dist (manhattan_to_center i)
               else min_dist)
            (range (Z.of_nat (length IDX_TO_POS))) Inf.

(** The search key of a state. *)
Definition state_key (use_symmetry : bool) (st : Z) : Z :=
  if use_symmetry then canonicalize st else st.

(** What holds of every frontier entry: its state lies over the 33 cells
    and has a peg, its cost is the number of pegs removed, its key is the
    search key of its state, its priority is cost plus heuristic, and the
    best-cost map holds its cost for its key. *)
Definition entry_ok (use_symmetry : bool) (g_score : gmap Z Z) (e : entry) : Prop :=
  let '(f, _, g, c, st) := e in
  0 <= st < 2 ^ 33 /\
  1 <= popcount st /\
  g = 32 - popcount st /\
  c = state_key use_symmetry st /\
  f = num_add (Fin g) (heuristic_advanced st) /\
  g_score !! c = Some g.

Definition search_ok (use_symmetry : bool) (s : SearchState) : Prop :=
  (forall e, In e (open_set s) -> entry_ok use_symmetry (g_score s) e) /\
  (forall c v, g_score s !! c = Some v -> v = 32 - popcount c) /\
  nodes_generated s = Z.of_nat (size (g_score s)) /\
  nodes_expanded s + Z.of_nat (length (open_set s)) = nodes_generated s /\
  1 <= best_num_pieces s <= 32.
(** * Facts *)

(** ** Bits and population count *)

Lemma shiftl_1_pow2 i : 0 <= i -> Z.shiftl 1 i = 2 ^ i.
Proof. intros Hi. now rewrite Z.shiftl_1_l. Qed.

Lemma testbit_shiftl_1 i n : 0 <= i -> Z.testbit (Z.shiftl 1 i) n = (i =? n).
Proof. intros Hi. rewrite shiftl_1_pow2 by assumption. now apply Z.pow2_bits_eqb. Qed.

Lemma bit_on_spec s i : 0 <= i -> bit_on s i = Z.testbit s i.
Proof.
  intros Hi. unfold bit_on.
  assert (Hland : Z.land s (Z.shiftl 1 i) = if Z.testbit s i then Z.shiftl 1 i else 0).
  { apply Z.bits_inj'. intros n Hn.
    rewrite Z.land_spec, testbit_shiftl_1 by assumption.
    destruct (Z.eqb_spec i n) as [->|Hne].
    - destruct (Z.testbit s n); [now rewrite testbit_shiftl_1, Z.eqb_refl | now rewrite Z.bits_0].
    - rewrite andb_false_r.
      destruct (Z.testbit s i); [|now rewrite Z.bits_0].
      rewrite testbit_shiftl_1 by assumption. symmetry. now apply Z.eqb_neq. }
  rewrite Hland. destruct (Z.testbit s i); [|reflexivity].
  rewrite shiftl_1_pow2 by assumption.
  assert (0 < 2 ^ i) by (apply Z.pow_pos_nonneg; lia).
  destruct (Z.eqb_spec (2 ^ i) 0); [lia | reflexivity].
Qed.

Lemma popcount_nonneg s : 0 <= popcount s.
Proof.
  assert (H : forall p, 0 < pos_popcount p) by (induction p; simpl; lia).
  destruct s as [|p|p]; simpl; [lia | |]; specialize (H p); lia.
Qed.

(** The count of a non-negative number, one binary digit at a time. *)
Lemma popcount_div2 s :
  0 <= s -> popcount s = Z.b2z (Z.odd s) + popcount (Z.div2 s).
Proof.
  intros Hs. destruct s as [|p|p]; [reflexivity | | lia].
  destruct p; simpl; lia.
Qed.

Lemma div2_lor_bit s i :
  0 <= i -> Z.div2 (Z.lor s (Z.shiftl 1 (Z.succ i))) = Z.lor (Z.div2 s) (Z.shiftl 1 i).
Proof.
  intros Hi. rewrite !Z.div2_spec, Z.shiftr_lor. f_equal.
  rewrite Z.shiftr_shiftl_l by lia. f_equal. lia.
Qed.

Lemma popcount_set_bit i :
  0 <= i -> forall s, 0 <= s -> Z.testbit s i = false ->
  popcount (Z.lor s (Z.shiftl 1 i)) = popcount s + 1.
Proof.
  intros Hi. pattern i. apply natlike_ind; [| |assumption]; clear i Hi.
  - intros s Hs Hbit. change (Z.shiftl 1 0) with 1.
    rewrite Z.bit0_odd in Hbit.
    rewrite (popcount_div2 (Z.lor s 1)) by (apply Z.lor_nonneg; lia).
    rewrite (popcount_div2 s) by assumption.
    rewrite Hbit.
    assert (Hodd : Z.odd (Z.lor s 1) = true).
    { rewrite <- Z.bit0_odd, Z.lor_spec. apply orb_true_r. }
    assert (Hdiv : Z.div2 (Z.lor s 1) = Z.div2 s).
    { rewrite !Z.div2_spec, Z.shiftr_lor. change (Z.shiftr 1 1) with 0.
      apply Z.lor_0_r. }
    rewrite Hodd, Hdiv. simpl. lia.
  - intros i Hi IH s Hs Hbit.
    assert (Hnn : 0 <= Z.lor s (Z.shiftl 1 (Z.succ i))).
    { apply Z.lor_nonneg. split; [assumption|]. apply Z.shiftl_nonneg. lia. }
    rewrite (popcount_div2 _ Hnn), (popcount_div2 s Hs).
    rewrite div2_lor_bit by assumption.
    rewrite IH.
    + assert (Hodd : Z.odd (Z.lor s (Z.shiftl 1 (Z.succ i))) = Z.odd s).
      { rewrite <- !Z.bit0_odd, Z.lor_spec, testbit_shiftl_1 by lia.
        destruct (Z.eqb_spec (Z.succ i) 0); [lia|]. apply orb_false_r. }
      rewrite Hodd. lia.
    + apply Z.div2_nonneg. assumption.
    + rewrite Z.div2_spec, Z.shiftr_spec by assumption.
      replace (i + 1) with (Z.succ i) by lia. assumption.
Qed.

Lemma popcount_clear_bit i s :
  0 <= i -> 0 <= s -> Z.testbit s i = true ->
  popcount (Z.land s (Z.lnot (Z.shiftl 1 i))) = popcount s - 1.
Proof.
  intros Hi Hs Hbit.
  set (s' := Z.land s (Z.lnot (Z.shiftl 1 i))).
  assert (Hs' : 0 <= s') by (apply Z.land_nonneg; now left).
  assert (Hclear : Z.testbit s' i = false).
  { unfold s'. rewrite Z.land_spec, Z.lnot_spec, testbit_shiftl_1, Z.eqb_refl by assumption.
    apply andb_false_r. }
  assert (Hback : s = Z.lor s' (Z.shiftl 1 i)).
  { apply Z.bits_inj'. intros n Hn. unfold s'.
    rewrite Z.lor_spec, Z.land_spec, Z.lnot_spec, testbit_shiftl_1 by assumption.
    destruct (Z.eqb_spec i n) as [->|Hne]; simpl.
    - rewrite Hbit. reflexivity.
    - rewrite andb_true_r, orb_false_r. reflexivity. }
  rewrite (f_equal popcount Hback), popcount_set_bit by assumption. lia.
Qed.

(** ** The move catalogue *)

Lemma VALID_MOVES_well_formed m : In m VALID_MOVES -> move_well_formed m = true.
Proof.
  assert (H : forallb move_well_formed VALID_MOVES = true) by (vm_compute; reflexivity).
  rewrite forallb_forall in H. apply H.
Qed.

Lemma move_well_formed_inv a b c :
  move_well_formed (a, b, c) = true ->
  (0 <= a < 33 /\ 0 <= b < 33 /\ 0 <= c < 33) /\ a <> b /\ a <> c /\ b <> c.
Proof.
  unfold move_well_formed. rewrite !andb_true_iff, !negb_true_iff.
  rewrite !Z.leb_le, !Z.ltb_lt, !Z.eqb_neq. intuition lia.
Qed.

Lemma get_valid_moves_fast_In state m :
  In m (get_valid_moves_fast state) <-> In m VALID_MOVES /\ is_legal state m = true.
Proof. unfold get_valid_moves_fast. apply filter_In. Qed.

Lemma is_legal_bits state a b c :
  0 <= a -> 0 <= b -> 0 <= c ->
  is_legal state (a, b, c) = true ->
  Z.testbit state a = true /\ Z.testbit state b = true /\ Z.testbit state c = false.
Proof.
  intros Ha Hb Hc. unfold is_legal.
  rewrite !bit_on_spec by assumption.
  rewrite !andb_true_iff, negb_true_iff. tauto.
Qed.

Lemma testbit_apply_move_fast state a b c n :
  0 <= a -> 0 <= b -> 0 <= c -> 0 <= n ->
  Z.testbit (apply_move_fast state (a, b, c)) n
  = (Z.testbit state n && negb (a =? n) && negb (b =? n)) || (c =? n).
Proof.
  intros Ha Hb Hc Hn. unfold apply_move_fast.
  rewrite Z.lor_spec, !Z.land_spec, !Z.lnot_spec, !testbit_shiftl_1 by assumption.
  reflexivity.
Qed.

Lemma popcount_apply_move_fast state a b c :
  0 <= state -> 0 <= a -> 0 <= b -> 0 <= c -> a <> b -> a <> c -> b <> c ->
  Z.testbit state a = true -> Z.testbit state b = true -> Z.testbit state c = false ->
  popcount (apply_move_fast state (a, b, c)) = popcount state - 1.
Proof.
  intros Hs Ha Hb Hc Hab Hac Hbc Hta Htb Htc. unfold apply_move_fast.
  set (s1 := Z.land state (Z.lnot (Z.shiftl 1 a))).
  set (s2 := Z.land s1 (Z.lnot (Z.shiftl 1 b))).
  assert (Hs1 : 0 <= s1) by (apply Z.land_nonneg; now left).
  assert (Hs2 : 0 <= s2) by (apply Z.land_nonneg; now left).
  assert (H1b : Z.testbit s1 b = true).
  { unfold s1. rewrite Z.land_spec, Z.lnot_spec, testbit_shiftl_1, Htb by assumption.
    destruct (Z.eqb_spec a b); [contradiction | reflexivity]. }
  assert (H2c : Z.testbit s2 c = false).
  { unfold s2, s1. rewrite !Z.land_spec, Htc. reflexivity. }
  rewrite popcount_set_bit by assumption.
  unfold s2. rewrite popcount_clear_bit by assumption.
  unfold s1. rewrite popcount_clear_bit by assumption. lia.
Qed.

Lemma apply_move_fast_nonneg state m :
  0 <= state -> In m VALID_MOVES -> 0 <= apply_move_fast state m.
Proof.
  intros Hs Hin. destruct m as [[a b] c].
  apply VALID_MOVES_well_formed, move_well_formed_inv in Hin.
  unfold apply_move_fast. apply Z.lor_nonneg. split.
  - apply Z.land_nonneg. left. apply Z.land_nonneg. now left.
  - apply Z.shiftl_nonneg. lia.
Qed.

(** C2.  For every state (a non-negative bitmask) and every move
    [(src, over, dst)] in [get_valid_moves_fast state], [apply_move_fast]
    clears the source and the jumped-over bit, sets the destination bit,
    leaves every other bit as it was, and the peg count of the result is
    [popcount state - 1]. *)
Theorem apply_move_fast_legal_move (state : Z) (src over dst : Z) :
  0 <= state ->
  In (src, over, dst) (get_valid_moves_fast state) ->
  let state' := apply_move_fast state (src, over, dst) in
  Z.testbit state' src = false /\
  Z.testbit state' over = false /\
  Z.testbit state' dst = true /\
  (forall i, i <> src -> i <> over -> i <> dst ->
             Z.testbit state' i = Z.testbit state i) /\
  popcount state' = popcount state - 1.
Proof.
  intros Hs Hin state'.
  apply get_valid_moves_fast_In in Hin. destruct Hin as [Hcat Hlegal].
  apply VALID_MOVES_well_formed, move_well_formed_inv in Hcat.
  destruct Hcat as [[Ha [Hb Hc]] [Hab [Hac Hbc]]].
  apply is_legal_bits in Hlegal; [|lia..].
  destruct Hlegal as [Hta [Htb Htc]].
  unfold state'. repeat split.
  - rewrite testbit_apply_move_fast by lia.
    rewrite Z.eqb_refl. destruct (Z.eqb_spec dst src); [lia|].
    rewrite andb_false_r. reflexivity.
  - rewrite testbit_apply_move_fast by lia.
    rewrite Z.eqb_refl. destruct (Z.eqb_spec dst over); [lia|].
    rewrite andb_false_r. reflexivity.
  - rewrite testbit_apply_move_fast by lia.
    rewrite Z.eqb_refl. apply orb_true_r.
  - intros i Hi1 Hi2 Hi3.
    destruct (Z.ltb_spec i 0) as [Hneg|Hpos].
    + rewrite !Z.testbit_neg_r by assumption. reflexivity.
    + rewrite testbit_apply_move_fast by lia.
      destruct (Z.eqb_spec src i); [lia|].
      destruct (Z.eqb_spec over i); [lia|].
      destruct (Z.eqb_spec dst i); [lia|].
      simpl. rewrite orb_false_r, !andb_true_r. reflexivity.
  - apply popcount_apply_move_fast; (assumption || lia).
Qed.

Lemma apply_move_fast_legal_move_witness :
  let state' := apply_move_fast initial_state (4, 9, 16) in
  Z.testbit state' 4 = false /\
  Z.testbit state' 9 = false /\
  Z.testbit state' 16 = true /\
  (forall i, i <> 4 -> i <> 9 -> i <> 16 ->
             Z.testbit state' i = Z.testbit initial_state i) /\
  popcount state' = popcount initial_state - 1.
Proof.
  apply (apply_move_fast_legal_move initial_state 4 9 16).
  - vm_compute. discriminate.
  - vm_compute. left. reflexivity.
Defined.

(** The examples of the specification: the starting position has 32 pegs and
    four legal moves, and one move leaves 31 pegs. *)
Example initial_state_value : initial_state = 8589869055.
Proof. reflexivity. Qed.

Example initial_state_popcount : popcount initial_state = 32.
Proof. reflexivity. Qed.

Example initial_moves :
  get_valid_moves_fast initial_state = [(4, 9, 16); (14, 15, 16); (18, 17, 16); (28, 23, 16)].
Proof. reflexivity. Qed.

Example first_move_popcount : popcount (apply_move_fast initial_state (4, 9, 16)) = 31.
Proof. reflexivity. Qed.

Example catalogue_sizes : length IDX_TO_POS = 33%nat /\ length VALID_MOVES = 76%nat.
Proof. split; reflexivity. Qed.

(** ** Lists and ranges *)

Lemma In_range i n : In i (range n) <-> 0 <= i < n.
Proof.
  unfold range. rewrite in_map_iff. split.
  - intros [x [<- Hx]]. apply in_seq in Hx. lia.
  - intros Hi. exists (Z.to_nat i). split; [lia|]. apply in_seq. lia.
Qed.

Lemma NoDup_range n : List.NoDup (range n).
Proof.
  unfold range. apply Finite.Injective_map_NoDup.
  - intros x y. apply Nat2Z.inj.
  - apply seq_NoDup.
Qed.

Lemma range_forallb (f : Z -> bool) n :
  forallb f (range n) = true -> forall i, 0 <= i < n -> f i = true.
Proof.
  intros H i Hi. rewrite forallb_forall in H. apply H, In_range, Hi.
Qed.

Lemma range2_forallb (f : Z -> Z -> bool) n m :
  forallb (fun k => forallb (f k) (range m)) (range n) = true ->
  forall k i, 0 <= k < n -> 0 <= i < m -> f k i = true.
Proof.
  intros H k i Hk Hi.
  apply (range_forallb (f k) m); [|assumption].
  apply (range_forallb (fun k => forallb (f k) (range m)) n); assumption.
Qed.

Lemma fold_left_flat_map {A B C} (f : A -> B -> A) (g : C -> list B) l a :
  fold_left f (flat_map g l) a = fold_left (fun a x => fold_left f (g x) a) l a.
Proof.
  revert a. induction l as [|x l IH]; intros a; simpl; [reflexivity|].
  rewrite fold_left_app. apply IH.
Qed.

Lemma fold_left_map_arg {A B C} (f : A -> B -> A) (g : C -> B) l a :
  fold_left f (map g l) a = fold_left (fun a x => f a (g x)) l a.
Proof. revert a. induction l as [|x l IH]; intros a; simpl; [reflexivity | apply IH]. Qed.

Lemma fold_left_ext_in {A B} (f g : A -> B -> A) l a :
  (forall a x, In x l -> f a x = g a x) -> fold_left f l a = fold_left g l a.
Proof.
  revert a. induction l as [|x l IH]; intros a H; simpl; [reflexivity|].
  rewrite H by (left; reflexivity). apply IH. intros b y Hy. apply H. right. exact Hy.
Qed.

(** ** Bitmasks built from index lists *)

Lemma testbit_fold_lor_bit l acc n :
  Forall (fun j => 0 <= j) l -> 0 <= n ->
  Z.testbit (fold_left lor_bit l acc) n = Z.testbit acc n || existsb (fun j => j =? n) l.
Proof.
  intros Hl Hn. revert acc. induction Hl as [|j l Hj Hl IH]; intros acc; simpl.
  - now rewrite orb_false_r.
  - rewrite IH. unfold lor_bit. rewrite Z.lor_spec, testbit_shiftl_1 by assumption.
    now rewrite orb_assoc.
Qed.

Lemma testbit_set_bits l n :
  Forall (fun j => 0 <= j) l -> 0 <= n ->
  Z.testbit (set_bits l) n = true <-> In n l.
Proof.
  intros Hl Hn. unfold set_bits. rewrite testbit_fold_lor_bit by assumption.
  rewrite Z.bits_0. simpl. rewrite existsb_exists. split.
  - intros [j [Hin Heq]]. apply Z.eqb_eq in Heq. now subst.
  - intros Hin. exists n. split; [assumption | apply Z.eqb_refl].
Qed.

Lemma set_bits_nonneg l : Forall (fun j => 0 <= j) l -> 0 <= set_bits l.
Proof.
  intros Hl. unfold set_bits.
  assert (H : forall acc, 0 <= acc -> 0 <= fold_left lor_bit l acc).
  { induction Hl as [|j l Hj Hl IH]; intros acc Hacc; simpl; [assumption|].
    apply IH. unfold lor_bit. apply Z.lor_nonneg. split; [assumption|].
    apply Z.shiftl_nonneg. lia. }
  apply H. lia.
Qed.

Lemma set_bits_ext l1 l2 :
  Forall (fun j => 0 <= j) l1 -> Forall (fun j => 0 <= j) l2 ->
  (forall n, In n l1 <-> In n l2) -> set_bits l1 = set_bits l2.
Proof.
  intros H1 H2 Hiff. apply Z.bits_inj'. intros n Hn.
  apply eq_true_iff_eq. rewrite !testbit_set_bits by assumption. apply Hiff.
Qed.

Lemma set_bits_bound l n :
  0 <= n -> Forall (fun j => 0 <= j < n) l -> 0 <= set_bits l < 2 ^ n.
Proof.
  intros Hn Hl.
  assert (Hnn : Forall (fun j => 0 <= j) l).
  { eapply List.Forall_impl; [|exact Hl]. simpl. intros; lia. }
  pose proof (set_bits_nonneg l Hnn) as H0. split; [assumption|].
  destruct (Z.eq_dec (set_bits l) 0) as [->|Hne]; [apply Z.pow_pos_nonneg; lia|].
  apply Z.log2_lt_pow2; [lia|].
  destruct (Z.lt_ge_cases (Z.log2 (set_bits l)) n) as [Hlt|Hge]; [assumption|].
  exfalso.
  assert (Hbit : Z.testbit (set_bits l) (Z.log2 (set_bits l)) = true)
    by (apply Z.bit_log2; lia).
  apply testbit_set_bits in Hbit; [|assumption|apply Z.log2_nonneg].
  rewrite List.Forall_forall in Hl. apply Hl in Hbit. lia.
Qed.

Lemma popcount_fold_lor_bit l :
  List.NoDup l -> Forall (fun j => 0 <= j) l ->
  forall acc, 0 <= acc -> (forall j, In j l -> Z.testbit acc j = false) ->
  popcount (fold_left lor_bit l acc) = popcount acc + Z.of_nat (length l).
Proof.
  intros Hnd. induction Hnd as [|j l Hj Hnd IH]; intros Hl acc Hacc Hfree; simpl.
  - lia.
  - inversion Hl as [|? ? Hj0 Hl']; subst.
    rewrite IH; [| assumption | |].
    + unfold lor_bit. rewrite popcount_set_bit; [lia | assumption | assumption |].
      apply Hfree. now left.
    + unfold lor_bit. apply Z.lor_nonneg. split; [assumption|].
      apply Z.shiftl_nonneg. lia.
    + intros i Hi. unfold lor_bit.
      rewrite Z.lor_spec, testbit_shiftl_1 by assumption.
      rewrite Hfree by (now right).
      destruct (Z.eqb_spec j i) as [->|]; [contradiction | reflexivity].
Qed.

Lemma popcount_set_bits l :
  List.NoDup l -> Forall (fun j => 0 <= j) l -> popcount (set_bits l) = Z.of_nat (length l).
Proof.
  intros Hnd Hl. unfold set_bits.
  rewrite popcount_fold_lor_bit; [reflexivity | assumption | assumption | lia |].
  intros j _. apply Z.bits_0.
Qed.

(** ** Occupied cells *)

Lemma In_occupied s i : In i (occupied s) <-> 0 <= i < 33 /\ Z.testbit s i = true.
Proof.
  unfold occupied. rewrite filter_In, In_range. split.
  - intros [Hi Hb]. rewrite bit_on_spec in Hb by lia. tauto.
  - intros [Hi Hb]. rewrite bit_on_spec by lia. tauto.
Qed.

Lemma occupied_range s : Forall (fun j => 0 <= j < 33) (occupied s).
Proof. apply List.Forall_forall. intros j Hj. now apply In_occupied in Hj. Qed.

Lemma occupied_nonneg s : Forall (fun j => 0 <= j) (occupied s).
Proof. eapply List.Forall_impl; [|apply occupied_range]. simpl. intros; lia. Qed.

Lemma NoDup_occupied s : List.NoDup (occupied s).
Proof. apply List.NoDup_filter, NoDup_range. Qed.

Lemma testbit_high s n i : 0 <= s < 2 ^ n -> n <= i -> Z.testbit s i = false.
Proof.
  intros Hs Hi. destruct (Z.eq_dec s 0) as [->|Hne]; [apply Z.bits_0|].
  apply Z.bits_above_log2; [lia|].
  assert (Z.log2 s < n); [|lia].
  apply Z.log2_lt_pow2; lia.
Qed.

(** A state within the 33 cells is the bitmask of its occupied cells. *)
Lemma set_bits_occupied s : 0 <= s < 2 ^ 33 -> set_bits (occupied s) = s.
Proof.
  intros Hs. apply Z.bits_inj'. intros n Hn. apply eq_true_iff_eq.
  rewrite testbit_set_bits by (apply occupied_nonneg || assumption).
  rewrite In_occupied. split; [tauto|]. intros Hb. split; [|assumption].
  destruct (Z.lt_ge_cases n 33) as [Hlt|Hge]; [lia|].
  rewrite (testbit_high s 33 n) in Hb by (assumption || lia). discriminate.
Qed.

Lemma popcount_occupied s :
  0 <= s < 2 ^ 33 -> popcount s = Z.of_nat (length (occupied s)).
Proof.
  intros Hs. rewrite <- (set_bits_occupied s Hs) at 1.
  apply popcount_set_bits; [apply NoDup_occupied | apply occupied_nonneg].
Qed.

(** ** The eight transforms *)

Lemma range3_forallb (f : Z -> Z -> Z -> bool) n m p :
  forallb (fun j => forallb (fun k => forallb (f j k) (range p)) (range m)) (range n) = true ->
  forall j k i, 0 <= j < n -> 0 <= k < m -> 0 <= i < p -> f j k i = true.
Proof.
  intros H j k i Hj Hk Hi.
  apply (range_forallb (f j k) p); [|assumption].
  apply (range2_forallb (fun j k => forallb (f j k) (range p)) n m); assumption.
Qed.

Lemma NoDup_map_in {A B} (f : A -> B) l :
  (forall x y, In x l -> In y l -> f x = f y -> x = y) ->
  List.NoDup l -> List.NoDup (map f l).
Proof.
  intros Hinj Hnd. induction Hnd as [|x l Hx Hnd IH]; simpl; constructor.
  - rewrite in_map_iff. intros [y [Heq Hy]].
    apply Hinj in Heq; [subst; contradiction | now right | now left].
  - apply IH. intros a b Ha Hb. apply Hinj; now right.
Qed.

(** [apply_symmetry] decodes, transforms and encodes again: the result has
    the bits that [sym_target] gives the occupied cells. *)
Lemma apply_symmetry_targets s k : apply_symmetry s k = set_bits (targets k (occupied s)).
Proof.
  unfold apply_symmetry, encode_pieces, transform_pieces, pieces_of, set_bits,
    targets, occupied.
  change (Z.of_nat (length IDX_TO_POS)) with 33.
  generalize (range 33) as l. intros l. generalize 0 as acc.
  induction l as [|i l IH]; intros acc; [reflexivity|].
  cbn [flat_map List.filter].
  destruct (bit_on s i); cbn [flat_map app]; [|apply IH].
  rewrite flat_map_app, !fold_left_app, IH. f_equal.
  unfold sym_target.
  destruct (IDX_TO_POS !! Z.to_nat i) as [rc|]; [|reflexivity].
  cbn [flat_map app]. destruct (sym_map k rc) as [nr nc].
  destruct (is_valid_cell nr nc); [|reflexivity].
  cbn [app fold_left]. destruct (POS_TO_IDX !! (nr, nc)); reflexivity.
Qed.

Lemma sym_target_perm k i :
  0 <= k < 8 -> 0 <= i < 33 -> sym_target k i = Some (sym_perm k i).
Proof.
  intros Hk Hi.
  assert (H : forallb (fun k => forallb (fun i =>
                match sym_target k i with
                | Some j => j =? sym_perm k i
                | None => false
                end) (range 33)) (range 8) = true) by (vm_compute; reflexivity).
  pose proof (range2_forallb _ _ _ H k i Hk Hi) as Hki. cbv beta in Hki.
  destruct (sym_target k i); [|discriminate].
  apply Z.eqb_eq in Hki. now subst.
Qed.

Lemma sym_perm_range k i :
  0 <= k < 8 -> 0 <= i < 33 -> 0 <= sym_perm k i < 33.
Proof.
  intros Hk Hi.
  assert (H : forallb (fun k => forallb (fun i =>
                (0 <=? sym_perm k i) && (sym_perm k i <? 33)) (range 33)) (range 8) = true)
    by (vm_compute; reflexivity).
  pose proof (range2_forallb _ _ _ H k i Hk Hi) as Hki. cbv beta in Hki.
  apply andb_true_iff in Hki. rewrite Z.leb_le, Z.ltb_lt in Hki. exact Hki.
Qed.

Lemma sym_perm_compose j k i :
  0 <= j < 8 -> 0 <= k < 8 -> 0 <= i < 33 ->
  sym_perm j (sym_perm k i) = sym_perm (sym_compose j k) i.
Proof.
  intros Hj Hk Hi.
  assert (H : forallb (fun j => forallb (fun k => forallb (fun i =>
                sym_perm j (sym_perm k i) =? sym_perm (sym_compose j k) i)
                (range 33)) (range 8)) (range 8) = true) by (vm_compute; reflexivity).
  pose proof (range3_forallb _ _ _ _ H j k i Hj Hk Hi) as Hjki.
  now apply Z.eqb_eq in Hjki.
Qed.

Lemma sym_compose_range j k : 0 <= j < 8 -> 0 <= k < 8 -> 0 <= sym_compose j k < 8.
Proof.
  intros Hj Hk.
  assert (H : forallb (fun j => forallb (fun k =>
                (0 <=? sym_compose j k) && (sym_compose j k <? 8)) (range 8)) (range 8) = true)
    by (vm_compute; reflexivity).
  pose proof (range2_forallb _ _ _ H j k Hj Hk) as Hjk. cbv beta in Hjk.
  apply andb_true_iff in Hjk. rewrite Z.leb_le, Z.ltb_lt in Hjk. exact Hjk.
Qed.

(** Every transform is reached from every other one: the eight transforms
    form a group. *)
Lemma sym_div_spec m k :
  0 <= m < 8 -> 0 <= k < 8 -> 0 <= sym_div m k < 8 /\ sym_compose (sym_div m k) k = m.
Proof.
  intros Hm Hk.
  assert (H : forallb (fun m => forallb (fun k =>
                (0 <=? sym_div m k) && (sym_div m k <? 8)
                && (sym_compose (sym_div m k) k =? m)) (range 8)) (range 8) = true)
    by (vm_compute; reflexivity).
  pose proof (range2_forallb _ _ _ H m k Hm Hk) as Hmk. cbv beta in Hmk.
  rewrite !andb_true_iff, Z.leb_le, Z.ltb_lt, Z.eqb_eq in Hmk. tauto.
Qed.

Lemma sym_perm_identity i : 0 <= i < 33 -> sym_perm 0 i = i.
Proof.
  intros Hi.
  assert (H : forallb (fun i => sym_perm 0 i =? i) (range 33) = true)
    by (vm_compute; reflexivity).
  pose proof (range_forallb _ _ H i Hi) as H0. now apply Z.eqb_eq in H0.
Qed.

Lemma sym_perm_inj k i i' :
  0 <= k < 8 -> 0 <= i < 33 -> 0 <= i' < 33 ->
  sym_perm k i = sym_perm k i' -> i = i'.
Proof.
  intros Hk Hi Hi' Heq.
  destruct (sym_div_spec 0 k) as [Hd Hc]; [lia | assumption |].
  rewrite <- (sym_perm_identity i), <- (sym_perm_identity i') by assumption.
  rewrite <- Hc, <- !sym_perm_compose by assumption.
  now rewrite Heq.
Qed.

Lemma targets_perm k l :
  0 <= k < 8 -> Forall (fun i => 0 <= i < 33) l -> targets k l = map (sym_perm k) l.
Proof.
  intros Hk Hl. unfold targets.
  induction Hl as [|i l Hi Hl IH]; simpl; [reflexivity|].
  rewrite sym_target_perm by assumption. simpl. now rewrite IH.
Qed.

(** For the eight indices, [apply_symmetry] sends bit [i] to bit
    [sym_perm k i]. *)
Lemma apply_symmetry_perm s k :
  0 <= k < 8 -> apply_symmetry s k = set_bits (map (sym_perm k) (occupied s)).
Proof.
  intros Hk. rewrite apply_symmetry_targets, targets_perm; auto using occupied_range.
Qed.

Lemma perm_occupied_range s k :
  0 <= k < 8 -> Forall (fun j => 0 <= j < 33) (map (sym_perm k) (occupied s)).
Proof.
  intros Hk. apply List.Forall_forall. intros j Hj.
  apply in_map_iff in Hj. destruct Hj as [i [<- Hi]].
  apply In_occupied in Hi. apply sym_perm_range; tauto.
Qed.

Lemma perm_occupied_nonneg s k :
  0 <= k < 8 -> Forall (fun j => 0 <= j) (map (sym_perm k) (occupied s)).
Proof.
  intros Hk. eapply List.Forall_impl; [|apply perm_occupied_range, Hk]. simpl. intros; lia.
Qed.

Lemma apply_symmetry_bound s k : 0 <= k < 8 -> 0 <= apply_symmetry s k < 2 ^ 33.
Proof.
  intros Hk. rewrite apply_symmetry_perm by assumption.
  apply set_bits_bound; [lia | apply perm_occupied_range, Hk].
Qed.

Lemma apply_symmetry_identity s : 0 <= s < 2 ^ 33 -> apply_symmetry s 0 = s.
Proof.
  intros Hs. rewrite apply_symmetry_perm by lia.
  rewrite <- (set_bits_occupied s Hs) at 2. f_equal.
  rewrite <- (map_id (occupied s)) at 2.
  apply map_ext_in. intros i Hi. apply In_occupied in Hi.
  apply sym_perm_identity. tauto.
Qed.

Lemma In_occupied_apply_symmetry s k n :
  0 <= k < 8 ->
  In n (occupied (apply_symmetry s k)) <-> In n (map (sym_perm k) (occupied s)).
Proof.
  intros Hk. rewrite In_occupied, apply_symmetry_perm by assumption. split.
  - intros [Hn Hb]. apply testbit_set_bits in Hb; [assumption | | lia].
    apply perm_occupied_nonneg, Hk.
  - intros Hin.
    pose proof (perm_occupied_range s k Hk) as Hr.
    rewrite List.Forall_forall in Hr. specialize (Hr n Hin). split; [assumption|].
    apply testbit_set_bits; [apply perm_occupied_nonneg, Hk | lia | assumption].
Qed.

(** Transforming twice is transforming once, by the composed transform. *)
Lemma apply_symmetry_compose s j k :
  0 <= j < 8 -> 0 <= k < 8 ->
  apply_symmetry (apply_symmetry s k) j = apply_symmetry s (sym_compose j k).
Proof.
  intros Hj Hk.
  pose proof (sym_compose_range j k Hj Hk) as Hjk.
  rewrite (apply_symmetry_perm _ j Hj), (apply_symmetry_perm s _ Hjk).
  apply set_bits_ext.
  - apply perm_occupied_nonneg, Hj.
  - apply perm_occupied_nonneg, Hjk.
  - intros n. rewrite !in_map_iff. split.
    + intros [m [<- Hm]]. apply In_occupied_apply_symmetry in Hm; [|assumption].
      apply in_map_iff in Hm. destruct Hm as [i [<- Hi]].
      exists i. split; [|assumption].
      symmetry. apply sym_perm_compose; try assumption.
      apply In_occupied in Hi. tauto.
    + intros [i [<- Hi]]. exists (sym_perm k i). split.
      * apply sym_perm_compose; try assumption. apply In_occupied in Hi. tauto.
      * apply In_occupied_apply_symmetry; [assumption|]. now apply in_map.
Qed.

(** C6.  For every state whose set bits all lie in the 33 valid-cell
    indices and every symmetry index [k] in [0,8), the transformed state has
    as many pegs as the state: no cell is dropped. *)
Theorem apply_symmetry_popcount (state k : Z) :
  0 <= state < 2 ^ 33 -> 0 <= k < 8 ->
  popcount (apply_symmetry state k) = popcount state.
Proof.
  intros Hs Hk. rewrite apply_symmetry_perm by assumption.
  rewrite popcount_set_bits.
  - rewrite length_map. symmetry. apply popcount_occupied, Hs.
  - apply NoDup_map_in; [|apply NoDup_occupied].
    intros x y Hx Hy. apply In_occupied in Hx, Hy.
    apply sym_perm_inj; tauto.
  - apply perm_occupied_nonneg, Hk.
Qed.

Lemma apply_symmetry_popcount_witness :
  popcount (apply_symmetry 7 1) = popcount 7.
Proof.
  apply (apply_symmetry_popcount 7 1); lia.
Defined.

(** ** The canonical representative *)

Lemma fold_min_spec l a :
  In (fold_left Z.min l a) (a :: l) /\ forall y, In y (a :: l) -> fold_left Z.min l a <= y.
Proof.
  revert a. induction l as [|x l IH]; intros a; simpl.
  - split; [now left | intros y [<-|[]]; lia].
  - destruct (IH (Z.min a x)) as [Hin Hle]. split.
    + destruct Hin as [Hin|Hin]; [|now right; right].
      rewrite <- Hin. destruct (Z.min_spec a x) as [[_ ->]|[_ ->]]; auto.
    + intros y [<-|[<-|Hy]].
      * specialize (Hle (Z.min a x) (or_introl eq_refl)). lia.
      * specialize (Hle (Z.min a x) (or_introl eq_refl)). lia.
      * apply Hle. now right.
Qed.

Lemma canonicalize_fold_min s : canonicalize s = fold_left Z.min (images s) s.
Proof.
  unfold canonicalize, images. rewrite fold_left_map_arg.
  apply fold_left_ext_in. intros c k _. cbv zeta.
  destruct (Z.ltb_spec (apply_symmetry s k) c); lia.
Qed.

(** [canonicalize] returns the least of the state and its eight images. *)
Lemma canonicalize_spec s :
  In (canonicalize s) (s :: images s) /\
  forall y, In y (s :: images s) -> canonicalize s <= y.
Proof. rewrite canonicalize_fold_min. apply fold_min_spec. Qed.

Lemma In_images s v : In v (images s) <-> exists k, 0 <= k < 8 /\ v = apply_symmetry s k.
Proof.
  unfold images. rewrite in_map_iff. split.
  - intros [k [<- Hk]]. exists k. apply In_range in Hk. tauto.
  - intros [k [Hk ->]]. exists k. split; [reflexivity | now apply In_range].
Qed.

Lemma least_unique (l1 l2 : list Z) m1 m2 :
  In m1 l1 -> (forall y, In y l1 -> m1 <= y) ->
  In m2 l2 -> (forall y, In y l2 -> m2 <= y) ->
  (forall v, In v l1 <-> In v l2) -> m1 = m2.
Proof.
  intros H1 L1 H2 L2 Hiff.
  assert (m1 <= m2) by (apply L1, Hiff, H2).
  assert (m2 <= m1) by (apply L2, Hiff, H1). lia.
Qed.

(** A state within the 33 cells and any of its images have the same images. *)
Lemma images_apply_symmetry x k v :
  0 <= x < 2 ^ 33 -> 0 <= k < 8 ->
  In v (apply_symmetry x k :: images (apply_symmetry x k)) <-> In v (x :: images x).
Proof.
  intros Hx Hk. cbn [In]. rewrite !In_images. split.
  - intros [<-|[j [Hj ->]]]; right.
    + now exists k.
    + exists (sym_compose j k). split; [now apply sym_compose_range|].
      now apply apply_symmetry_compose.
  - intros H. right.
    assert (Hm : exists m, 0 <= m < 8 /\ v = apply_symmetry x m).
    { destruct H as [<-|H]; [|exact H].
      exists 0. split; [lia|]. symmetry. now apply apply_symmetry_identity. }
    destruct Hm as [m [Hm ->]].
    destruct (sym_div_spec m k Hm Hk) as [Hd Hc].
    exists (sym_div m k). split; [assumption|].
    rewrite apply_symmetry_compose by assumption. now rewrite Hc.
Qed.

(** C3.  For every state [x] over the 33 valid-cell indices and every
    symmetry index [k] in [0,8), the image of [x] under [k] has the same
    canonical representative as [x]. *)
Theorem canonicalize_apply_symmetry (x k : Z) :
  0 <= x < 2 ^ 33 -> 0 <= k < 8 ->
  canonicalize (apply_symmetry x k) = canonicalize x.
Proof.
  intros Hx Hk.
  destruct (canonicalize_spec (apply_symmetry x k)) as [Hin1 Hle1].
  destruct (canonicalize_spec x) as [Hin2 Hle2].
  apply (least_unique (apply_symmetry x k :: images (apply_symmetry x k)) (x :: images x));
    try assumption.
  intros v. now apply images_apply_symmetry.
Qed.

Lemma canonicalize_apply_symmetry_witness :
  canonicalize (apply_symmetry 7 1) = canonicalize 7.
Proof.
  apply (canonicalize_apply_symmetry 7 1); lia.
Defined.

(** C4.  [canonicalize] is idempotent on every state over the 33 valid-cell
    indices, so on every state the search reaches. *)
Theorem canonicalize_idempotent (x : Z) :
  0 <= x < 2 ^ 33 -> canonicalize (canonicalize x) = canonicalize x.
Proof.
  intros Hx.
  destruct (canonicalize_spec x) as [Hin Hle].
  assert (Himg : canonicalize x = x \/
                 exists k, 0 <= k < 8 /\ canonicalize x = apply_symmetry x k).
  { destruct Hin as [Heq|Hin'];
      [left; now symmetry | right; now apply In_images in Hin']. }
  destruct Himg as [Heq|[k [Hk Hc]]]; [now rewrite Heq|].
  destruct (canonicalize_spec (canonicalize x)) as [Hin1 Hle1].
  apply (least_unique (canonicalize x :: images (canonicalize x)) (x :: images x));
    try assumption.
  intros v. rewrite Hc. now apply images_apply_symmetry.
Qed.

Lemma canonicalize_idempotent_witness :
  canonicalize (canonicalize 8589869055) = canonicalize 8589869055.
Proof.
  apply (canonicalize_idempotent 8589869055). lia.
Defined.

(** C10.  For every state, [canonicalize state <= state]; the two are equal
    exactly when the state is not above any of its eight images. *)
Theorem canonicalize_le (state : Z) :
  canonicalize state <= state /\
  (canonicalize state = state <->
   forall k, 0 <= k < 8 -> state <= apply_symmetry state k).
Proof.
  destruct (canonicalize_spec state) as [Hin Hle]. split; [apply Hle; now left|].
  split.
  - intros Heq k Hk. rewrite <- Heq at 1. apply Hle. right.
    apply In_images. now exists k.
  - intros Hall. destruct Hin as [Heq|Hin]; [now symmetry|].
    apply In_images in Hin. destruct Hin as [k [Hk Hc]].
    specialize (Hall k Hk). specialize (Hle state (or_introl eq_refl)). lia.
Qed.

(** ** The heuristic on terminal states *)

(** C5.  For every state with at most one peg, [heuristic_advanced] is 0
    exactly when the state is the goal; for a state with exactly one peg
    that is not the centre peg, the estimate is infinite. *)
Theorem heuristic_advanced_terminal (state : Z) :
  popcount state <= 1 ->
  (heuristic_advanced state = Fin 0 <-> is_goal state = true) /\
  (popcount state = 1 -> state <> Z.shiftl 1 CENTER_IDX ->
   heuristic_advanced state = Inf).
Proof.
  intros Hp. unfold heuristic_advanced.
  destruct (Z.leb_spec (popcount state) 1) as [_|Hgt]; [|lia].
  split.
  - destruct (is_goal state); split; intros H; (reflexivity || discriminate).
  - intros _ Hne. unfold is_goal.
    destruct (Z.eqb_spec state (Z.shiftl 1 CENTER_IDX)); [contradiction | reflexivity].
Qed.

Lemma heuristic_advanced_terminal_witness :
  (heuristic_advanced 1 = Fin 0 <-> is_goal 1 = true) /\
  (popcount 1 = 1 -> 1 <> Z.shiftl 1 CENTER_IDX -> heuristic_advanced 1 = Inf).
Proof.
  apply (heuristic_advanced_terminal 1). vm_compute. discriminate.
Defined.

(** ** The fuel of the breadth-first search is enough *)

Lemma count_false_insert visited i :
  visited !! i = Some false ->
  (count_false (<[i := true]> visited) + 1 = count_false visited)%nat.
Proof.
  unfold count_false. revert i. induction visited as [|b visited IH]; intros i H.
  - destruct i; discriminate.
  - destruct i as [|i].
    + injection H as ->. cbn. lia.
    + change ((b :: visited) !! S i) with (visited !! i) in H.
      change (<[S i := true]> (b :: visited)) with (b :: <[i := true]> visited).
      specialize (IH i H). destruct b; cbn [List.filter negb length]; lia.
Qed.

Lemma ADJ_in_range current :
  Forall (fun j => (Z.to_nat j < 33)%nat) (default [] (ADJ !! Z.to_nat current)).
Proof.
  assert (H : forallb (forallb (fun j => (Z.to_nat j <? 33)%nat)) ADJ = true)
    by (vm_compute; reflexivity).
  rewrite forallb_forall in H.
  destruct (ADJ !! Z.to_nat current) as [l|] eqn:Hl; cbn; [|constructor].
  apply list_elem_of_lookup_2, list_elem_of_In, H in Hl.
  rewrite forallb_forall in Hl. apply List.Forall_forall.
  intros j Hj. apply Hl in Hj. now apply Nat.ltb_lt in Hj.
Qed.

(** Visiting the neighbours of a cell does not increase the measure. *)
Lemma visit_neighbors_measure state nbrs :
  forall visited queue visited' queue',
    Forall (fun j => (Z.to_nat j < length visited)%nat) nbrs ->
    fold_left (fun (vq : list bool * list Z) neighbor =>
                 let '(visited, queue) := vq in
                 if bit_on state neighbor && negb (visited_at visited neighbor)
                 then (<[Z.to_nat neighbor := true]> visited, queue ++ [neighbor])
                 else vq) nbrs (visited, queue) = (visited', queue') ->
    length visited' = length visited /\
    (bfs_measure visited' queue' <= bfs_measure visited queue)%nat.
Proof.
  induction nbrs as [|j nbrs IH]; intros visited queue visited' queue' Hr H.
  - injection H as <- <-. split; [reflexivity | lia].
  - inversion Hr as [|? ? Hj Hr']; subst. cbn [fold_left] in H.
    destruct (bit_on state j && negb (visited_at visited j)) eqn:Hc.
    + apply andb_true_iff in Hc. destruct Hc as [_ Hv].
      apply negb_true_iff in Hv. unfold visited_at in Hv.
      destruct (visited !! Z.to_nat j) as [b|] eqn:Hl.
      * cbn in Hv. subst b.
        apply IH in H; [|now rewrite length_insert].
        destruct H as [Hlen Hm]. rewrite length_insert in Hlen. split; [assumption|].
        pose proof (count_false_insert visited (Z.to_nat j) Hl) as Hcf.
        unfold bfs_measure in *. rewrite length_app in Hm. cbn [length] in Hm. lia.
      * apply lookup_ge_None in Hl. lia.
    + now apply IH in H.
Qed.

(** More fuel than the measure: the result does not depend on the fuel. *)
Lemma bfs_fuel state fuel :
  forall fuel' visited queue,
    length visited = 33%nat ->
    (bfs_measure visited queue < fuel)%nat ->
    (bfs_measure visited queue < fuel')%nat ->
    bfs fuel state visited queue = bfs fuel' state visited queue.
Proof.
  induction fuel as [|fuel IH]; intros fuel' visited queue Hlen Hf Hf'; [lia|].
  destruct fuel' as [|fuel']; [lia|]. cbn [bfs].
  destruct queue as [|current queue]; [reflexivity|].
  unfold visit_neighbors.
  destruct (fold_left _ (default [] (ADJ !! Z.to_nat current)) (visited, queue))
    as [visited' queue'] eqn:Hv.
  apply visit_neighbors_measure in Hv.
  - destruct Hv as [Hlen' Hm]. unfold bfs_measure in *. cbn [length] in Hf, Hf'.
    apply IH; unfold bfs_measure; lia.
  - rewrite Hlen. apply ADJ_in_range.
Qed.

(** [connected_components] starts every search with 33 flags and one index
    in the queue: its fuel, 68, is above the measure, and any larger fuel
    gives the same result. *)
Lemma bfs_enough_fuel state visited i fuel :
  length visited = 33%nat -> (68 <= fuel)%nat ->
  bfs (2 * length IDX_TO_POS + 2) state visited [i] = bfs fuel state visited [i].
Proof.
  intros Hlen Hfuel.
  assert (Hc : (count_false visited <= 33)%nat).
  { unfold count_false. rewrite <- Hlen. apply filter_length_le. }
  change (length IDX_TO_POS) with 33%nat.
  apply bfs_fuel; [assumption | |]; unfold bfs_measure; cbn [length]; lia.
Qed.

(** ** The search loop *)

Lemma length_heappush heap e : length (heappush heap e) = S (length heap).
Proof.
  induction heap as [|x heap IH]; simpl; [reflexivity|].
  destruct (entry_ltb e x); simpl; [reflexivity | now rewrite IH].
Qed.

Lemma In_heappush heap e x : In x (heappush heap e) <-> x = e \/ In x heap.
Proof.
  induction heap as [|y heap IH]; simpl; [intuition|].
  destruct (entry_ltb e y); simpl; [intuition | rewrite IH; intuition].
Qed.

Section EngineFacts.

Variable canonicalize_fn : Z -> Z.
Variable heuristic_fn : Z -> num.
Variable get_valid_moves_fn : Z -> list Move.
Variable apply_move_fn : Z -> Move -> Z.
Variable use_symmetry : bool.

#[local] Abbreviation relax' := (relax canonicalize_fn heuristic_fn apply_move_fn use_symmetry).
#[local] Abbreviation expand' :=
  (expand canonicalize_fn heuristic_fn get_valid_moves_fn apply_move_fn use_symmetry).
#[local] Abbreviation iteration' :=
  (iteration canonicalize_fn heuristic_fn get_valid_moves_fn apply_move_fn use_symmetry).
#[local] Abbreviation astar_loop' :=
  (astar_loop canonicalize_fn heuristic_fn get_valid_moves_fn apply_move_fn use_symmetry).
#[local] Abbreviation astar_trace' :=
  (astar_trace canonicalize_fn heuristic_fn get_valid_moves_fn apply_move_fn use_symmetry).

Lemma iteration_Continue tl mn el s s' :
  iteration' tl mn el s = Continue s' ->
  exists e rest, open_set s = e :: rest /\ expand' el s e rest = Continue s'.
Proof.
  unfold iteration, heappop. destruct (open_set s) as [|e rest]; [discriminate|].
  destruct (tl <? el); [discriminate|].
  destruct (mn <? nodes_expanded s); [discriminate|].
  intros H. now exists e, rest.
Qed.

Lemma iteration_Return tl mn el s r :
  iteration' tl mn el s = Return r ->
  (open_set s = [] /\ r = failure exhausted el s) \/
  (exists e rest, open_set s = e :: rest /\
     (r = failure timeout el s \/ r = failure max_nodes_exceeded el s \/
      expand' el s e rest = Return r)).
Proof.
  unfold iteration, heappop. destruct (open_set s) as [|e rest].
  - intros [= <-]. now left.
  - intros H. right. exists e, rest. split; [reflexivity|].
    destruct (tl <? el); [injection H as <-; now left|].
    destruct (mn <? nodes_expanded s); [injection H as <-; right; now left|].
    right. now right.
Qed.

Lemma expand_Continue el s f t g c st rest s' :
  expand' el s (f, t, g, c, st) rest = Continue s' ->
  s' = discarding s rest \/
  (is_goal st = false /\
   s' = fold_left (relax' st g) (get_valid_moves_fn st) (expanding s rest st)).
Proof.
  unfold expand.
  destruct (num_ltb (g_score_get (g_score s) c) (Fin g)).
  - intros [= <-]. now left.
  - destruct (is_goal st).
    + destruct (reconstruct_path (came_from s) st); discriminate.
    + intros [= <-]. right. split; reflexivity.
Qed.

Lemma expand_Return el s f t g c st rest r :
  expand' el s (f, t, g, c, st) rest = Return r ->
  is_goal st = true /\
  exists path, reconstruct_path (came_from s) st = Some path /\
    r = (Some path,
         {| status := success;
            expanded := nodes_expanded s + 1;
            generated := nodes_generated s;
            elapsed_sec := el;
            best_pieces := None;
            moves := Some (Z.of_nat (length path));
            final_pieces := Some (popcount st) |}).
Proof.
  unfold expand.
  destruct (num_ltb (g_score_get (g_score s) c) (Fin g)); [discriminate|].
  destruct (is_goal st); [|discriminate].
  destruct (reconstruct_path (came_from s) st) as [path|]; [|discriminate].
  intros [= <-]. split; [reflexivity|]. now exists path.
Qed.

(** An invariant of the passes holds in every state of the trace. *)
Lemma astar_trace_invariant (P : SearchState -> Prop) clock tl mn :
  (forall el s s', P s -> iteration' tl mn el s = Continue s' -> P s') ->
  forall n k s, P s -> P (astar_trace' n clock tl mn k s).
Proof.
  intros Hstep. induction n as [|n IH]; intros k s Hs; simpl; [assumption|].
  destruct (iteration' tl mn (clock k - clock 0%nat) s) as [s'| |] eqn:Hit;
    try assumption.
  apply IH. eapply Hstep; eassumption.
Qed.

(** A result of the loop is the result of a pass from a state of the trace. *)
Lemma astar_loop_Return fuel clock tl mn k s r :
  astar_loop' fuel clock tl mn k s = Some r ->
  exists n, iteration' tl mn (clock (k + n)%nat - clock 0%nat)
                       (astar_trace' n clock tl mn k s) = Return r.
Proof.
  revert k s. induction fuel as [|fuel IH]; intros k s; simpl; [discriminate|].
  destruct (iteration' tl mn (clock k - clock 0%nat) s) as [s'|r'|] eqn:Hit.
  - intros H. apply IH in H. destruct H as [n Hn].
    exists (S n). simpl. rewrite Hit.
    replace (k + S n)%nat with (S k + n)%nat by lia. exact Hn.
  - intros [= <-]. exists 0%nat. simpl. now rewrite Nat.add_0_r.
  - discriminate.
Qed.

(** *** Expanded and generated counters *)

Lemma relax_counters_ok st g s m : counters_ok s -> counters_ok (relax' st g s m).
Proof.
  unfold counters_ok, relax. intros H.
  destruct (num_ltb _ _); [|assumption].
  cbv zeta. cbn [nodes_expanded open_set nodes_generated].
  rewrite length_heappush. lia.
Qed.

Lemma fold_relax_counters_ok st g l s :
  counters_ok s -> counters_ok (fold_left (relax' st g) l s).
Proof.
  revert s. induction l as [|m l IH]; intros s H; simpl; [assumption|].
  apply IH, relax_counters_ok, H.
Qed.

Lemma iteration_counters_ok tl mn el s s' :
  counters_ok s -> iteration' tl mn el s = Continue s' -> counters_ok s'.
Proof.
  intros H Hit. apply iteration_Continue in Hit.
  destruct Hit as [e [rest [Hopen Hex]]].
  destruct e as [[[[f t] g] c] st].
  apply expand_Continue in Hex. unfold counters_ok in H. rewrite Hopen in H.
  cbn [length] in H.
  destruct Hex as [->|[_ ->]].
  - unfold counters_ok, discarding. cbn [nodes_expanded open_set nodes_generated]. lia.
  - apply fold_relax_counters_ok.
    unfold counters_ok, expanding. cbn [nodes_expanded open_set nodes_generated]. lia.
Qed.

Lemma iteration_Return_counters tl mn el s r :
  counters_ok s -> iteration' tl mn el s = Return r ->
  expanded (snd r) <= generated (snd r).
Proof.
  unfold counters_ok. intros H Hit. apply iteration_Return in Hit.
  destruct Hit as [[_ ->]|[e [rest [Hopen [->|[->|Hex]]]]]];
    try (unfold failure; cbn [snd expanded generated]; lia).
  destruct e as [[[[f t] g] c] st].
  apply expand_Return in Hex. destruct Hex as [_ [path [_ ->]]].
  rewrite Hopen in H. cbn [length] in H. cbn [snd expanded generated]. lia.
Qed.

Lemma init_search_counters_ok :
  counters_ok (init_search canonicalize_fn heuristic_fn use_symmetry).
Proof. unfold counters_ok, init_search. cbn. lia. Qed.

End EngineFacts.

(** C8.  In every call of [astar_solve], the expanded counter is at most
    the generated counter: when a pass of the loop starts, at every point of
    the successor loop of a pass, and in every statistics record that is
    returned. *)
Theorem expanded_le_generated (clock : nat -> Z) (time_limit_sec : Z)
    (greedy_bias use_symmetry : bool) (max_nodes : Z) :
  (forall n,
     let s := astar_solve_state n clock time_limit_sec greedy_bias use_symmetry max_nodes in
     nodes_expanded s <= nodes_generated s) /\
  (forall n f t g c st rest done,
     let s := astar_solve_state n clock time_limit_sec greedy_bias use_symmetry max_nodes in
     open_set s = (f, t, g, c, st) :: rest ->
     let s' := fold_left (relax canonicalize heuristic_advanced apply_move_fast
                                use_symmetry st g)
                         done (expanding s rest st) in
     nodes_expanded s' <= nodes_generated s') /\
  (forall fuel r,
     astar_solve fuel clock time_limit_sec greedy_bias use_symmetry max_nodes = Some r ->
     expanded (snd r) <= generated (snd r)).
Proof.
  assert (Htrace : forall n,
    counters_ok (astar_solve_state n clock time_limit_sec greedy_bias use_symmetry max_nodes)).
  { intros n. unfold astar_solve_state. apply astar_trace_invariant.
    - intros el s s'. apply iteration_counters_ok.
    - apply init_search_counters_ok. }
  split; [|split].
  - intros n s. specialize (Htrace n). unfold counters_ok in Htrace. fold s in Htrace. lia.
  - intros n f t g c st rest done s Hopen s'.
    assert (Hs' : counters_ok s').
    { apply fold_relax_counters_ok. specialize (Htrace n). fold s in Htrace.
      unfold counters_ok in *. rewrite Hopen in Htrace.
      cbn [expanding nodes_expanded open_set nodes_generated length] in *. lia. }
    unfold counters_ok in Hs'. lia.
  - intros fuel r Hr. unfold astar_solve in Hr.
    apply astar_loop_Return in Hr. destruct Hr as [n Hn].
    eapply iteration_Return_counters; [|exact Hn]. apply Htrace.
Qed.

(** ** The frontier is a priority queue *)

Lemma num_eqb_refl a : num_eqb a a = true.
Proof. destruct a; simpl; [apply Z.eqb_refl | reflexivity]. Qed.

Lemma num_eqb_true a b : num_eqb a b = true -> a = b.
Proof.
  destruct a, b; simpl; try discriminate; [|reflexivity].
  intros H. apply Z.eqb_eq in H. now subst.
Qed.

Lemma num_ltb_asym a b : num_ltb a b = true -> num_ltb b a = false.
Proof.
  destruct a, b; simpl; try discriminate; try reflexivity.
  rewrite Z.ltb_lt, Z.ltb_ge. lia.
Qed.

Lemma num_ltb_transitive a b c :
  num_ltb a b = true -> num_ltb b c = true -> num_ltb a c = true.
Proof.
  destruct a, b, c; simpl; try discriminate; try reflexivity.
  rewrite !Z.ltb_lt. lia.
Qed.

Lemma num_ltb_neq a b : num_ltb a b = true -> num_eqb a b = false.
Proof.
  destruct a, b; simpl; try discriminate; try reflexivity.
  rewrite Z.ltb_lt, Z.eqb_neq. lia.
Qed.

Lemma lex_ltb_irrefl l : lex_ltb l l = false.
Proof. induction l as [|a l IH]; simpl; [reflexivity|]. now rewrite num_eqb_refl. Qed.

Lemma lex_ltb_trans l1 :
  forall l2 l3, lex_ltb l1 l2 = true -> lex_ltb l2 l3 = true -> lex_ltb l1 l3 = true.
Proof.
  induction l1 as [|a l1 IH]; intros [|b l2] [|c l3]; simpl; try discriminate.
  destruct (num_eqb a b) eqn:Hab, (num_eqb b c) eqn:Hbc; cbn [negb].
  - apply num_eqb_true in Hab, Hbc. subst. rewrite num_eqb_refl. cbn [negb]. apply IH.
  - apply num_eqb_true in Hab. subst. rewrite Hbc. cbn [negb]. auto.
  - apply num_eqb_true in Hbc. subst. rewrite Hab. cbn [negb]. auto.
  - intros H1 H2. pose proof (num_ltb_transitive a b c H1 H2) as H3.
    now rewrite (num_ltb_neq a c H3).
Qed.

Lemma entry_ltb_lex e1 e2 : entry_ltb e1 e2 = lex_ltb (entry_nums e1) (entry_nums e2).
Proof.
  destruct e1 as [[[[f1 t1] g1] c1] s1], e2 as [[[[f2 t2] g2] c2] s2].
  unfold entry_ltb, entry_nums. cbn [lex_ltb num_eqb num_ltb].
  destruct (Z.eqb_spec s1 s2) as [->|]; cbn [negb]; [|reflexivity].
  now rewrite Z.ltb_irrefl.
Qed.

Lemma entry_ltb_irrefl e : entry_ltb e e = false.
Proof. rewrite entry_ltb_lex. apply lex_ltb_irrefl. Qed.

Lemma entry_ltb_trans e1 e2 e3 :
  entry_ltb e1 e2 = true -> entry_ltb e2 e3 = true -> entry_ltb e1 e3 = true.
Proof. rewrite !entry_ltb_lex. apply lex_ltb_trans. Qed.

Lemma entry_ltb_asym e1 e2 : entry_ltb e1 e2 = true -> entry_ltb e2 e1 = false.
Proof.
  intros H. destruct (entry_ltb e2 e1) eqn:H'; [|reflexivity].
  pose proof (entry_ltb_trans _ _ _ H H') as Hc.
  rewrite entry_ltb_irrefl in Hc. discriminate.
Qed.

(** [heappush] keeps the frontier in order, so [heappop] removes an entry
    that no entry of the frontier is less than. *)
Lemma heappush_least_first heap e : least_first heap -> least_first (heappush heap e).
Proof.
  induction heap as [|x heap IH]; intros H.
  - cbn. split; [intros y []|exact I].
  - destruct H as [Hx Hheap]. cbn [heappush].
    destruct (entry_ltb e x) eqn:Hex.
    + split; [|split; assumption].
      intros y [<-|Hy]; [now apply entry_ltb_asym|].
      destruct (entry_ltb y e) eqn:Hye; [|reflexivity].
      rewrite <- (Hx y Hy). symmetry. now apply (entry_ltb_trans y e x).
    + split; [|now apply IH].
      intros y Hy. apply In_heappush in Hy. destruct Hy as [->|Hy]; auto.
Qed.

Lemma heappop_least heap x rest :
  least_first heap -> heappop heap = Some (x, rest) ->
  (forall y, In y heap -> entry_ltb y x = false) /\ least_first rest.
Proof.
  destruct heap as [|x' heap]; [discriminate|].
  intros [Hx Hrest] [= <- <-]. split; [|assumption].
  intros y [<-|Hy]; [apply entry_ltb_irrefl | now apply Hx].
Qed.

Section FrontierFacts.

Variable canonicalize_fn : Z -> Z.
Variable heuristic_fn : Z -> num.
Variable get_valid_moves_fn : Z -> list Move.
Variable apply_move_fn : Z -> Move -> Z.
Variable use_symmetry : bool.

Lemma fold_relax_least_first st g l s :
  least_first (open_set s) ->
  least_first (open_set (fold_left (relax canonicalize_fn heuristic_fn apply_move_fn
                                          use_symmetry st g) l s)).
Proof.
  revert s. induction l as [|m l IH]; intros s H; simpl; [assumption|].
  apply IH. unfold relax. destruct (num_ltb _ _); [|assumption].
  cbv zeta. cbn [open_set]. now apply heappush_least_first.
Qed.

Lemma iteration_least_first tl mn el s s' :
  least_first (open_set s) ->
  iteration canonicalize_fn heuristic_fn get_valid_moves_fn apply_move_fn use_symmetry
            tl mn el s = Continue s' ->
  least_first (open_set s').
Proof.
  intros H Hit. apply iteration_Continue in Hit.
  destruct Hit as [e [rest [Hs Hex]]]. destruct e as [[[[f t] g] c] st].
  rewrite Hs in H. destruct H as [_ Hrest].
  apply expand_Continue in Hex. destruct Hex as [->|[_ ->]]; [assumption|].
  now apply fold_relax_least_first.
Qed.

End FrontierFacts.

(** In every call, at every pass, the entry that the pass pops is one that
    no entry of the frontier is less than. *)
Lemma frontier_least_first clock time_limit_sec greedy_bias use_symmetry max_nodes n :
  least_first (open_set (astar_solve_state n clock time_limit_sec greedy_bias
                                           use_symmetry max_nodes)).
Proof.
  unfold astar_solve_state.
  apply (astar_trace_invariant _ _ _ _ _ (fun s => least_first (open_set s))).
  - intros el s s'. apply iteration_least_first.
  - cbn. split; [intros y []|exact I].
Qed.

(** *** The returned path *)

Lemma play_app state p1 p2 :
  play state (p1 ++ p2) = match play state p1 with
                          | Some state' => play state' p2
                          | None => None
                          end.
Proof.
  revert state. induction p1 as [|m p1 IH]; intros state; cbn [play app]; [reflexivity|].
  destruct (existsb _ _); [apply IH | reflexivity].
Qed.

Lemma play_legal state m :
  In m (get_valid_moves_fast state) -> play state [m] = Some (apply_move_fast state m).
Proof.
  intros Hin. cbn [play].
  assert (H : existsb (move_eqb m) (get_valid_moves_fast state) = true).
  { apply existsb_exists. exists m. split; [assumption|].
    destruct m as [[a b] c]. unfold move_eqb. now rewrite !Z.eqb_refl. }
  now rewrite H.
Qed.

Lemma linked_insert cf k v st : linked cf st -> linked (<[k := v]> cf) st.
Proof.
  intros [->|Hs]; [now left | right].
  destruct (decide (k = st)) as [->|Hne].
  - rewrite lookup_insert_eq. eauto.
  - now rewrite lookup_insert_ne.
Qed.

Section PathFacts.

Variable canonicalize_fn : Z -> Z.
Variable heuristic_fn : Z -> num.
Variable use_symmetry : bool.

#[local] Abbreviation relax' :=
  (relax canonicalize_fn heuristic_fn apply_move_fast use_symmetry).
#[local] Abbreviation iteration' :=
  (iteration canonicalize_fn heuristic_fn get_valid_moves_fast apply_move_fast use_symmetry).

Lemma relax_path_inv st g s m :
  In m (get_valid_moves_fast st) -> linked (came_from s) st -> path_inv s ->
  path_inv (relax' st g s m) /\ linked (came_from (relax' st g s m)) st.
Proof.
  intros Hm Hst [Hopen Hcf]. unfold relax.
  destruct (num_ltb _ _); [|split; [split|]; assumption].
  unfold path_inv. cbv zeta. cbn [came_from open_set]. split; [split|].
  - intros e He. apply In_heappush in He. destruct He as [->|He].
    + right. cbn [entry_state snd]. rewrite lookup_insert_eq. eauto.
    + apply linked_insert, Hopen, He.
  - intros k p mv Hk.
    destruct (decide (apply_move_fast st m = k)) as [Heq|Hne].
    + subst k. rewrite lookup_insert_eq in Hk. injection Hk as <- <-.
      exists m. repeat split; try assumption.
      apply linked_insert, Hst.
    + rewrite lookup_insert_ne in Hk by assumption.
      destruct (Hcf k p mv Hk) as [m' [-> [Hin [Happ Hl]]]].
      exists m'. repeat split; try assumption. apply linked_insert, Hl.
  - apply linked_insert, Hst.
Qed.

Lemma fold_relax_path_inv st g l s :
  (forall m, In m l -> In m (get_valid_moves_fast st)) ->
  linked (came_from s) st -> path_inv s ->
  path_inv (fold_left (relax' st g) l s).
Proof.
  revert s. induction l as [|m l IH]; intros s Hl Hst Hinv; simpl; [assumption|].
  destruct (relax_path_inv st g s m) as [Hinv' Hst']; try assumption.
  { apply Hl. now left. }
  apply IH; try assumption. intros m' Hm'. apply Hl. now right.
Qed.

Lemma iteration_path_inv tl mn el s s' :
  path_inv s -> iteration' tl mn el s = Continue s' -> path_inv s'.
Proof.
  intros [Hopen Hcf] Hit. apply iteration_Continue in Hit.
  destruct Hit as [e [rest [Hs Hex]]].
  destruct e as [[[[f t] g] c] st].
  assert (Hst : linked (came_from s) st).
  { apply (Hopen (f, t, g, c, st)). rewrite Hs. now left. }
  assert (Hrest : forall e, In e rest -> linked (came_from s) (entry_state e)).
  { intros e He. apply Hopen. rewrite Hs. now right. }
  apply expand_Continue in Hex. destruct Hex as [->|[_ ->]].
  - split; assumption.
  - apply fold_relax_path_inv; [auto | exact Hst | split; assumption].
Qed.

Lemma init_search_path_inv :
  path_inv (init_search canonicalize_fn heuristic_fn use_symmetry).
Proof.
  split.
  - intros e [<-|[]]. now left.
  - intros k p mv Hk. cbn in Hk. rewrite lookup_empty in Hk. discriminate.
Qed.

End PathFacts.

(** Walking the provenance entries back from a linked state collects, last
    move first, a sequence of legal moves from the initial state to it. *)
Lemma walk_back_play cf :
  (forall k p mv, cf !! k = Some (p, mv) ->
     exists m, mv = Some m /\ In m (get_valid_moves_fast p) /\
               apply_move_fast p m = k /\ linked cf p) ->
  forall fuel cur acc result,
    linked cf cur ->
    walk_back fuel cf cur acc = Some result ->
    exists suffix, result = acc ++ suffix /\ play initial_state (rev suffix) = Some cur.
Proof.
  intros Hcf. induction fuel as [|fuel IH]; intros cur acc result Hcur; simpl.
  - destruct (cf !! cur) as [[prev mv]|] eqn:Hlook; [discriminate|].
    intros [= <-]. exists []. rewrite app_nil_r. split; [reflexivity|].
    destruct Hcur as [->|Hs]; [reflexivity|].
    rewrite Hlook in Hs. destruct Hs; discriminate.
  - destruct (cf !! cur) as [[prev mv]|] eqn:Hlook.
    + destruct (Hcf cur prev mv Hlook) as [m [-> [Hin [Happ Hprev]]]].
      intros Hw. apply IH in Hw; [|assumption].
      destruct Hw as [suffix [-> Hplay]].
      exists (m :: suffix). split; [now rewrite <- app_assoc|].
      cbn [rev]. rewrite play_app, Hplay, play_legal by assumption. now rewrite Happ.
    + intros [= <-]. exists []. rewrite app_nil_r. split; [reflexivity|].
      destruct Hcur as [->|Hs]; [reflexivity|].
      rewrite Hlook in Hs. destruct Hs; discriminate.
Qed.

(** C1.  When [astar_solve] returns with status [success], it returns a move
    sequence; played in order from [initial_state], every move is legal on
    the state it is applied to and the last state satisfies [is_goal]; the
    reported path length is the number of moves in the sequence. *)
Theorem astar_solve_success_path (fuel : nat) (clock : nat -> Z)
    (time_limit_sec : Z) (greedy_bias use_symmetry : bool) (max_nodes : Z)
    (result : option (list Move)) (stats : Stats) :
  astar_solve fuel clock time_limit_sec greedy_bias use_symmetry max_nodes
    = Some (result, stats) ->
  status stats = success ->
  exists path final,
    result = Some path /\
    play initial_state path = Some final /\
    is_goal final = true /\
    moves stats = Some (Z.of_nat (length path)).
Proof.
  intros Hrun Hstatus. unfold astar_solve in Hrun.
  apply astar_loop_Return in Hrun. destruct Hrun as [n Hn].
  set (s := astar_trace canonicalize heuristic_advanced get_valid_moves_fast
              apply_move_fast use_symmetry n clock time_limit_sec max_nodes 1
              (init_search canonicalize heuristic_advanced use_symmetry)) in Hn.
  assert (Hinv : path_inv s).
  { apply astar_trace_invariant.
    - intros el s0 s'. apply iteration_path_inv.
    - apply init_search_path_inv. }
  destruct Hinv as [Hopen Hcf].
  apply iteration_Return in Hn.
  destruct Hn as [[_ Hr]|[e [rest [Hs [Hr|[Hr|Hex]]]]]];
    try (injection Hr as _ ->; discriminate).
  destruct e as [[[[f t] g] c] st].
  apply expand_Return in Hex. destruct Hex as [Hgoal [path [Hrec Hr]]].
  injection Hr as -> ->.
  unfold reconstruct_path in Hrec.
  destruct (walk_back _ _ _ _) as [back|] eqn:Hwalk; [|discriminate].
  injection Hrec as <-.
  apply (walk_back_play _ Hcf) in Hwalk.
  - destruct Hwalk as [suffix [-> Hplay]]. cbn [app] in *.
    exists (rev suffix), st. repeat split; assumption || reflexivity.
  - apply (Hopen (f, t, g, c, st)). rewrite Hs. now left.
Qed.

(** ** Resource checks *)

Section StepFacts.

Variable canonicalize_fn : Z -> Z.
Variable heuristic_fn : Z -> num.
Variable get_valid_moves_fn : Z -> list Move.
Variable apply_move_fn : Z -> Move -> Z.
Variable use_symmetry : bool.

#[local] Abbreviation expand' :=
  (expand canonicalize_fn heuristic_fn get_valid_moves_fn apply_move_fn use_symmetry).
#[local] Abbreviation iteration' :=
  (iteration canonicalize_fn heuristic_fn get_valid_moves_fn apply_move_fn use_symmetry).
#[local] Abbreviation astar_trace' :=
  (astar_trace canonicalize_fn heuristic_fn get_valid_moves_fn apply_move_fn use_symmetry).
#[local] Abbreviation step' :=
  (step canonicalize_fn heuristic_fn get_valid_moves_fn apply_move_fn use_symmetry).
#[local] Abbreviation steps' :=
  (steps canonicalize_fn heuristic_fn get_valid_moves_fn apply_move_fn use_symmetry).

(** Whether a pass continues, and in which state, does not depend on the
    clock reading. *)
Lemma expand_Continue_elapsed el el' s e rest s' :
  expand' el s e rest = Continue s' -> expand' el' s e rest = Continue s'.
Proof.
  destruct e as [[[[f t] g] c] st]. unfold expand.
  destruct (num_ltb _ _); [trivial|].
  destruct (is_goal st); [|trivial].
  destruct (reconstruct_path _ _); discriminate.
Qed.

Lemma iteration_step tl mn el s s' :
  iteration' tl mn el s = Continue s' -> step' s = Some s'.
Proof.
  intros H. apply iteration_Continue in H. destruct H as [e [rest [Hs Hex]]].
  unfold step. rewrite Hs.
  now rewrite (expand_Continue_elapsed el 0 s e rest s' Hex).
Qed.

Lemma step_iteration tl mn el s s' :
  step' s = Some s' -> el <= tl -> nodes_expanded s <= mn ->
  iteration' tl mn el s = Continue s'.
Proof.
  unfold step, iteration, heappop. destruct (open_set s) as [|e rest]; [discriminate|].
  intros Hstep Hel Hmn.
  destruct (Z.ltb_spec tl el); [lia|].
  destruct (Z.ltb_spec mn (nodes_expanded s)); [lia|].
  destruct (expand' 0 s e rest) as [s0| |] eqn:Hex; try discriminate.
  injection Hstep as ->. now apply (expand_Continue_elapsed 0 el).
Qed.

(** The node-limit check of a pass. *)
Lemma iteration_node_limit tl mn el s :
  open_set s <> [] -> el <= tl -> mn < nodes_expanded s ->
  iteration' tl mn el s = Return (failure max_nodes_exceeded el s).
Proof.
  unfold iteration, heappop. destruct (open_set s) as [|e rest]; [congruence|].
  intros _ Hel Hmn.
  destruct (Z.ltb_spec tl el); [lia|].
  destruct (Z.ltb_spec mn (nodes_expanded s)); [reflexivity | lia].
Qed.

(** The time check comes first. *)
Lemma iteration_timeout tl mn el s :
  open_set s <> [] -> tl < el ->
  iteration' tl mn el s = Return (failure timeout el s).
Proof.
  unfold iteration, heappop. destruct (open_set s) as [|e rest]; [congruence|].
  intros _ Hel. destruct (Z.ltb_spec tl el); [reflexivity | lia].
Qed.

(** Every state of a trace is a state of the trace without resource
    checks. *)
Lemma astar_trace_steps clock tl mn n k s :
  exists m, (m <= n)%nat /\ steps' m s = Some (astar_trace' n clock tl mn k s).
Proof.
  revert k s. induction n as [|n IH]; intros k s; simpl.
  - exists 0%nat. split; [lia | reflexivity].
  - destruct (iteration' tl mn (clock k - clock 0%nat) s) as [s'| |] eqn:Hit;
      try (exists 0%nat; split; [lia | reflexivity]).
    destruct (IH (S k) s') as [m [Hm Hsteps]].
    exists (S m). split; [lia|]. simpl.
    now rewrite (iteration_step _ _ _ _ _ Hit).
Qed.

Lemma steps_add n m s :
  steps' (n + m) s = match steps' n s with
                     | Some s' => steps' m s'
                     | None => None
                     end.
Proof.
  revert s. induction n as [|n IH]; intros s; simpl; [reflexivity|].
  destruct (step' s); [apply IH | reflexivity].
Qed.

End StepFacts.

(** The first pass of [astar_solve] expands the initial state and leaves a
    frontier; the second pass expands one more state. *)
Lemma first_passes use_symmetry :
  exists s1 s2,
    solve_step use_symmetry (solve_init use_symmetry) = Some s1 /\
    nodes_expanded s1 = 1 /\ open_set s1 <> [] /\
    solve_step use_symmetry s1 = Some s2 /\
    nodes_expanded s2 = 2 /\ open_set s2 <> [].
Proof.
  assert (H : forall us,
    match solve_step us (solve_init us) with
    | Some s1 =>
        (nodes_expanded s1 =? 1) && negb (Nat.eqb (length (open_set s1)) 0)
        && match solve_step us s1 with
           | Some s2 => (nodes_expanded s2 =? 2) && negb (Nat.eqb (length (open_set s2)) 0)
           | None => false
           end
    | None => false
    end = true) by (intros [|]; vm_compute; reflexivity).
  specialize (H use_symmetry).
  destruct (solve_step use_symmetry (solve_init use_symmetry)) as [s1|] eqn:E1;
    [|discriminate].
  destruct (solve_step use_symmetry s1) as [s2|] eqn:E2;
    [|rewrite andb_false_r in H; discriminate].
  rewrite !andb_true_iff, !negb_true_iff, !Z.eqb_eq, !Nat.eqb_neq in H.
  destruct H as [[H1 H2] [H3 H4]].
  assert (Ho1 : open_set s1 <> []) by (intros E; rewrite E in H2; now apply H2).
  assert (Ho2 : open_set s2 <> []) by (intros E; rewrite E in H4; now apply H4).
  exists s1, s2. tauto.
Qed.

(** C7, as amended.  When, at the start of a pass, the time check (made
    first) passes and the count of expanded nodes exceeds [max_nodes],
    the pass returns the status [max_nodes_exceeded] with the current
    statistics.  A call with [max_nodes = 0] returns that status at its
    second pass, and a call with [max_nodes = 1] at its third pass, when the
    time budget is not exceeded before. *)
Theorem node_limit_return :
  (forall use_symmetry time_limit_sec max_nodes elapsed s,
     open_set s <> [] -> elapsed <= time_limit_sec -> max_nodes < nodes_expanded s ->
     solve_iteration use_symmetry time_limit_sec max_nodes elapsed s
     = Return (None, {| status := max_nodes_exceeded;
                        expanded := nodes_expanded s;
                        generated := nodes_generated s;
                        elapsed_sec := elapsed;
                        best_pieces := Some (best_num_pieces s);
                        moves := None;
                        final_pieces := None |})) /\
  (forall clock time_limit_sec greedy_bias use_symmetry,
     clock 1%nat - clock 0%nat <= time_limit_sec ->
     clock 2%nat - clock 0%nat <= time_limit_sec ->
     exists stats,
       astar_solve 2 clock time_limit_sec greedy_bias use_symmetry 0 = Some (None, stats) /\
       status stats = max_nodes_exceeded /\ expanded stats = 1) /\
  (forall clock time_limit_sec greedy_bias use_symmetry,
     clock 1%nat - clock 0%nat <= time_limit_sec ->
     clock 2%nat - clock 0%nat <= time_limit_sec ->
     clock 3%nat - clock 0%nat <= time_limit_sec ->
     exists stats,
       astar_solve 3 clock time_limit_sec greedy_bias use_symmetry 1 = Some (None, stats) /\
       status stats = max_nodes_exceeded /\ expanded stats = 2).
Proof.
  split; [|split].
  - intros us tl mn el s Hopen Hel Hmn. unfold solve_iteration.
    now rewrite iteration_node_limit.
  - intros clock tl gb us H1 H2.
    destruct (first_passes us) as [s1 [s2 [Hs1 [He1 [Ho1 _]]]]].
    unfold solve_step, solve_init in Hs1.
    unfold astar_solve. cbn [astar_loop].
    rewrite (step_iteration _ _ _ _ _ tl 0 _ _ s1 Hs1 H1) by (cbn; lia).
    rewrite iteration_node_limit by (assumption || lia).
    eexists. split; [reflexivity|]. split; [reflexivity | exact He1].
  - intros clock tl gb us H1 H2 H3.
    destruct (first_passes us) as [s1 [s2 [Hs1 [He1 [Ho1 [Hs2 [He2 Ho2]]]]]]].
    unfold solve_step, solve_init in Hs1, Hs2.
    unfold astar_solve. cbn [astar_loop].
    rewrite (step_iteration _ _ _ _ _ tl 1 _ _ s1 Hs1 H1) by (cbn; lia).
    rewrite (step_iteration _ _ _ _ _ tl 1 _ _ s2 Hs2 H2) by lia.
    rewrite iteration_node_limit by (assumption || lia).
    eexists. split; [reflexivity|]. split; [reflexivity | exact He2].
Qed.

Lemma node_limit_return_witness :
  exists stats,
    astar_solve 2 (fun _ => 0) 300 true true 0 = Some (None, stats) /\
    status stats = max_nodes_exceeded /\ expanded stats = 1.
Proof.
  apply (proj1 (proj2 node_limit_return) (fun _ => 0) 300 true true); lia.
Defined.

(** C7 as stated fails: in this call with [max_nodes = 0] the second pass
    starts with one node expanded, more than [max_nodes], and a non-empty
    frontier, and the call returns the status [timeout], because the clock
    is beyond the time budget and that check is made first. *)
Lemma node_limit_after_time_check :
  let s := astar_solve_state 1 late_clock 5 true true 0 in
  0 < nodes_expanded s /\ open_set s <> [] /\
  astar_solve 2 late_clock 5 true true 0
  = Some (None, {| status := timeout;
                   expanded := 1;
                   generated := 2;
                   elapsed_sec := 10;
                   best_pieces := Some 32;
                   moves := None;
                   final_pieces := None |}).
Proof.
  split; [|split].
  - vm_compute. reflexivity.
  - vm_compute. discriminate.
  - vm_compute. reflexivity.
Qed.

(** ** The evaluation twins compute what the code computes *)

(** *** [canonicalize_fast] *)

Lemma permute_bits_select p masks acc :
  permute_bits p masks acc = fold_left Z.lor (select p masks) acc.
Proof.
  revert p acc. induction masks as [|m masks IH]; intros p acc; [reflexivity|].
  destruct p; simpl; auto.
Qed.

Lemma select_map {A B} (f : A -> B) p l : select p (map f l) = map f (select p l).
Proof.
  revert p. induction l as [|x l IH]; intros p; [reflexivity|].
  destruct p; simpl; now rewrite ?IH.
Qed.

Lemma filter_none {A} (f : A -> bool) l :
  (forall x, In x l -> f x = false) -> List.filter f l = [].
Proof.
  induction l as [|x l IH]; intros H; simpl; [reflexivity|].
  rewrite H by (now left). apply IH. intros y Hy. apply H. now right.
Qed.

Lemma testbit_pos_succ p i :
  0 <= i ->
  Z.testbit (Zpos p) (Z.succ i)
  = match p with
    | xH => false
    | xO q => Z.testbit (Zpos q) i
    | xI q => Z.testbit (Zpos q) i
    end.
Proof.
  intros Hi. destruct p as [q|q|].
  - rewrite Pos2Z.inj_xI. now apply Z.testbit_odd_succ.
  - rewrite Pos2Z.inj_xO. now apply Z.testbit_even_succ.
  - change 1 with (2 * 0 + 1). rewrite Z.testbit_odd_succ by assumption. apply Z.bits_0.
Qed.

Lemma select_seq n p a :
  select p (map Z.of_nat (seq a n))
  = List.filter (fun i => Z.testbit (Zpos p) (i - Z.of_nat a)) (map Z.of_nat (seq a n)).
Proof.
  revert p a. induction n as [|n IH]; intros p a; [reflexivity|].
  cbn [seq map select List.filter]. rewrite Z.sub_diag.
  assert (Htail : forall x, In x (map Z.of_nat (seq (S a) n)) ->
            x - Z.of_nat a = Z.succ (x - Z.of_nat (S a)) /\ 0 <= x - Z.of_nat (S a)).
  { intros x Hx. apply in_map_iff in Hx. destruct Hx as [y [<- Hy]].
    apply in_seq in Hy. lia. }
  destruct p as [q|q|].
  - change (Z.testbit (Zpos q~1) 0) with true. cbv iota. f_equal.
    rewrite IH. apply filter_ext_in. intros x Hx.
    destruct (Htail x Hx) as [-> H0]. now rewrite testbit_pos_succ.
  - change (Z.testbit (Zpos q~0) 0) with false. cbv iota.
    rewrite IH. apply filter_ext_in. intros x Hx.
    destruct (Htail x Hx) as [-> H0]. now rewrite testbit_pos_succ.
  - change (Z.testbit 1 0) with true. cbv iota. f_equal.
    symmetry. apply filter_none. intros x Hx.
    destruct (Htail x Hx) as [-> H0]. now rewrite testbit_pos_succ.
Qed.

Lemma select_range p : select p (range 33) = occupied (Zpos p).
Proof.
  unfold range, occupied. rewrite select_seq. apply filter_ext_in.
  intros i Hi. change (Z.of_nat 0) with 0. rewrite Z.sub_0_r.
  symmetry. apply bit_on_spec.
  apply (proj1 (In_range i 33)) in Hi. lia.
Qed.

Lemma permute_bits_apply_symmetry p k :
  0 <= k < 8 -> permute_bits p (sym_masks k) 0 = apply_symmetry (Zpos p) k.
Proof.
  intros Hk. rewrite apply_symmetry_perm by assumption.
  rewrite permute_bits_select. unfold sym_masks, set_bits.
  rewrite select_map, select_range.
  rewrite (fold_left_map_arg Z.lor), (fold_left_map_arg lor_bit). reflexivity.
Qed.

Lemma canonicalize_fast_eq state : canonicalize_fast state = canonicalize state.
Proof.
  destruct state as [|p|p]; try reflexivity.
  unfold canonicalize_fast, canonicalize.
  change SYM_MASKS with (map sym_masks (range 8)).
  rewrite fold_left_map_arg. apply fold_left_ext_in.
  intros c k Hk. apply In_range in Hk. cbv zeta.
  now rewrite permute_bits_apply_symmetry.
Qed.

(** *** [heuristic_fast] *)

Lemma manhattan_to_center_le i : 0 <= i < 33 -> manhattan_to_center i <= 4.
Proof.
  intros Hi.
  assert (H : forallb (fun i => manhattan_to_center i <=? 4) (range 33) = true)
    by (vm_compute; reflexivity).
  apply Z.leb_le. exact (range_forallb _ _ H i Hi).
Qed.

Lemma min_dist_small state l acc :
  Forall (fun i => 0 <= i < 33) l -> small_dist acc ->
  small_dist (fold_left (fun min_dist i =>
                           if bit_on state i
                           then num_min min_dist (manhattan_to_center i)
                           else min_dist) l acc).
Proof.
  intros Hl. revert acc. induction Hl as [|i l Hi Hl IH]; intros acc Hacc; simpl;
    [assumption|].
  apply IH. destruct (bit_on state i); [|assumption].
  pose proof (manhattan_to_center_le i Hi). destruct acc; simpl in *; lia.
Qed.

Lemma components_le state l (vc : list bool * Z) :
  snd (fold_left (fun (vc : list bool * Z) i =>
                    let '(visited, components) := vc in
                    if bit_on state i && negb (visited_at visited i)
                    then (bfs (2 * length IDX_TO_POS + 2) state
                              (<[Z.to_nat i := true]> visited) [i],
                          components + 1)
                    else vc) l vc)
  <= snd vc + Z.of_nat (length (List.filter (bit_on state) l)).
Proof.
  revert vc. induction l as [|i l IH]; intros [visited components];
    cbn [fold_left List.filter]; [cbn; lia|].
  destruct (bit_on state i); cbn [andb].
  - cbn [length]. rewrite Nat2Z.inj_succ.
    destruct (negb (visited_at visited i)).
    + etransitivity; [apply IH|]. cbn [snd]. lia.
    + etransitivity; [apply IH|]. cbn [snd]. lia.
  - apply IH.
Qed.

Lemma isolated_le state (l : list (Z * (Z * Z))) acc :
  fold_left (fun isolated_penalty (ip : Z * (Z * Z)) =>
               let '(i, rc) := ip in
               if bit_on state i
               then if occupied_neighbors state rc <=? 1
                    then isolated_penalty + 1 else isolated_penalty
               else isolated_penalty) l acc
  <= acc + Z.of_nat (length (List.filter (bit_on state) (map fst l))).
Proof.
  revert acc. induction l as [|[i rc] l IH]; intros acc;
    cbn [fold_left List.filter map fst]; [cbn; lia|].
  destruct (bit_on state i).
  - cbn [length]. rewrite Nat2Z.inj_succ.
    destruct (occupied_neighbors state rc <=? 1).
    + etransitivity; [apply IH|]. lia.
    + etransitivity; [apply IH|]. lia.
  - apply IH.
Qed.

Lemma range_nonneg_lt n : Forall (fun i => 0 <= i < n) (range n).
Proof. apply List.Forall_forall. intros i Hi. now apply In_range. Qed.

(** With three pegs or more, the peg count decides the estimate. *)
Lemma heuristic_advanced_many state :
  0 <= state < 2 ^ 33 -> 3 <= popcount state ->
  heuristic_advanced state = Fin (popcount state - 1).
Proof.
  intros Hs Hp. unfold heuristic_advanced.
  destruct (Z.leb_spec (popcount state) 1); [lia|]. cbv zeta. f_equal.
  change (Z.of_nat (length IDX_TO_POS)) with 33.
  pose proof (min_dist_small state (range 33) Inf (range_nonneg_lt 33) I) as Hmd.
  destruct (fold_left _ (range 33) Inf) as [d|].
  - pose proof (components_le state (range 33) (repeat false (length IDX_TO_POS), 0)) as Hc.
    pose proof (isolated_le state (enumerate IDX_TO_POS) 0) as Hi.
    change (map fst (enumerate IDX_TO_POS)) with (range 33) in Hi.
    unfold connected_components. change (Z.of_nat (length IDX_TO_POS)) with 33.
    fold (occupied state) in Hc, Hi. rewrite <- popcount_occupied in Hc, Hi by assumption.
    cbn [snd] in Hc. simpl in Hmd.
    assert (Hd : (d + 1) / 2 < 3) by (apply Z.div_lt_upper_bound; lia).
    set (iso := fold_left _ (enumerate IDX_TO_POS) 0) in *.
    assert (H4 : iso / 3 < popcount state).
    { apply Z.div_lt_upper_bound; lia. }
    lia.
  - pose proof (components_le state (range 33) (repeat false (length IDX_TO_POS), 0)) as Hc.
    pose proof (isolated_le state (enumerate IDX_TO_POS) 0) as Hi.
    change (map fst (enumerate IDX_TO_POS)) with (range 33) in Hi.
    unfold connected_components. change (Z.of_nat (length IDX_TO_POS)) with 33.
    fold (occupied state) in Hc, Hi. rewrite <- popcount_occupied in Hc, Hi by assumption.
    cbn [snd] in Hc.
    set (iso := fold_left _ (enumerate IDX_TO_POS) 0) in *.
    assert (H4 : iso / 3 < popcount state).
    { apply Z.div_lt_upper_bound; lia. }
    lia.
Qed.

Lemma heuristic_fast_eq state : heuristic_fast state = heuristic_advanced state.
Proof.
  unfold heuristic_fast.
  destruct (Z.leb_spec 0 state); [|reflexivity].
  destruct (Z.ltb_spec state 8589934592); [|reflexivity].
  destruct (Z.leb_spec 3 (popcount state)); [|reflexivity].
  cbn [andb]. symmetry. apply heuristic_advanced_many; [|assumption].
  change (2 ^ 33) with 8589934592. lia.
Qed.

(** *** [get_valid_moves_masked] and [apply_move_table] *)

Lemma testbit_test_mask a b c n :
  0 <= a -> 0 <= b -> 0 <= c ->
  Z.testbit (move_test_mask (a, b, c)) n = (a =? n) || (b =? n) || (c =? n).
Proof.
  intros Ha Hb Hc. unfold move_test_mask.
  now rewrite !Z.lor_spec, !testbit_shiftl_1.
Qed.

Lemma testbit_need_mask a b c n :
  0 <= a -> 0 <= b ->
  Z.testbit (move_need_mask (a, b, c)) n = (a =? n) || (b =? n).
Proof.
  intros Ha Hb. unfold move_need_mask. now rewrite Z.lor_spec, !testbit_shiftl_1.
Qed.

Lemma is_legal_masks state m :
  move_well_formed m = true ->
  (Z.land state (move_test_mask m) =? move_need_mask m) = is_legal state m.
Proof.
  destruct m as [[a b] c]. intros Hwf. apply move_well_formed_inv in Hwf.
  destruct Hwf as [[Ha [Hb Hc]] [Hab [Hac Hbc]]].
  apply eq_true_iff_eq. rewrite Z.eqb_eq. unfold is_legal.
  rewrite !bit_on_spec, !andb_true_iff, negb_true_iff by lia. split.
  - intros H.
    assert (Hbit : forall n, Z.testbit state n && ((a =? n) || (b =? n) || (c =? n))
                             = (a =? n) || (b =? n)).
    { intros n. rewrite <- testbit_test_mask, <- (testbit_need_mask a b c) by lia.
      now rewrite <- Z.land_spec, H. }
    pose proof (Hbit a) as Hba. pose proof (Hbit b) as Hbb. pose proof (Hbit c) as Hbc'.
    rewrite Z.eqb_refl in Hba, Hbb, Hbc'.
    destruct (Z.eqb_spec a c); [lia|]. destruct (Z.eqb_spec b c); [lia|].
    rewrite ?orb_true_r, ?andb_true_r in *. cbn in *. tauto.
  - intros [[Hta Htb] Htc]. apply Z.bits_inj'. intros n Hn.
    rewrite Z.land_spec, testbit_test_mask, testbit_need_mask by lia.
    destruct (Z.eqb_spec a n) as [<-|]; [rewrite Hta; reflexivity|].
    destruct (Z.eqb_spec b n) as [<-|]; [rewrite Htb; reflexivity|].
    destruct (Z.eqb_spec c n) as [<-|]; [rewrite Htc; reflexivity|].
    apply andb_false_r.
Qed.

Lemma filter_map_fst {A B} (P : A * B -> bool) (h : A -> B) l :
  map fst (List.filter P (map (fun x => (x, h x)) l))
  = List.filter (fun x => P (x, h x)) l.
Proof.
  induction l as [|x l IH]; simpl; [reflexivity|].
  destruct (P (x, h x)); simpl; now rewrite IH.
Qed.

Lemma get_valid_moves_masked_eq state :
  get_valid_moves_masked state = get_valid_moves_fast state.
Proof.
  unfold get_valid_moves_masked, get_valid_moves_fast.
  change MOVE_MASKS
    with (map (fun m => (m, (move_test_mask m, move_need_mask m))) VALID_MOVES).
  rewrite (filter_map_fst (fun t => Z.land state (fst (snd t)) =? snd (snd t))
                          (fun m => (move_test_mask m, move_need_mask m))).
  apply filter_ext_in. intros m Hm. cbn [fst snd].
  apply is_legal_masks, VALID_MOVES_well_formed, Hm.
Qed.

Lemma clear_bit_sub s i :
  0 <= i -> Z.testbit s i = true ->
  Z.land s (Z.lnot (Z.shiftl 1 i)) = s - Z.shiftl 1 i.
Proof.
  intros Hi Hb. rewrite <- Z.ldiff_land. symmetry. apply Z.sub_nocarry_ldiff.
  apply Z.bits_inj'. intros n Hn.
  rewrite Z.ldiff_spec, testbit_shiftl_1, Z.bits_0 by assumption.
  destruct (Z.eqb_spec i n) as [<-|]; [now rewrite Hb | reflexivity].
Qed.

Lemma set_bit_add s i :
  0 <= i -> Z.testbit s i = false -> Z.lor s (Z.shiftl 1 i) = s + Z.shiftl 1 i.
Proof.
  intros Hi Hb.
  assert (Hland : Z.land s (Z.shiftl 1 i) = 0).
  { apply Z.bits_inj'. intros n Hn.
    rewrite Z.land_spec, testbit_shiftl_1, Z.bits_0 by assumption.
    destruct (Z.eqb_spec i n) as [<-|]; [now rewrite Hb | apply andb_false_r]. }
  rewrite Z.add_nocarry_lxor by assumption. symmetry. now apply Z.lxor_lor.
Qed.

Lemma MOVE_DELTAS_lookup m :
  In m VALID_MOVES -> MOVE_DELTAS !! move_code m = Some (move_delta m).
Proof.
  assert (H : forallb (fun m => match MOVE_DELTAS !! move_code m with
                                | Some d => d =? move_delta m
                                | None => false
                                end) VALID_MOVES = true) by (vm_compute; reflexivity).
  rewrite forallb_forall in H. intros Hm. specialize (H m Hm).
  destruct (MOVE_DELTAS !! move_code m); [|discriminate].
  apply Z.eqb_eq in H. now subst.
Qed.

Lemma apply_move_table_eq state m :
  In m (get_valid_moves_fast state) ->
  apply_move_table state m = apply_move_fast state m.
Proof.
  intros Hm. apply get_valid_moves_fast_In in Hm. destruct Hm as [Hcat Hlegal].
  unfold apply_move_table. rewrite MOVE_DELTAS_lookup by assumption.
  destruct m as [[a b] c].
  apply VALID_MOVES_well_formed, move_well_formed_inv in Hcat.
  destruct Hcat as [[Ha [Hb Hc]] [Hab [Hac Hbc]]].
  apply is_legal_bits in Hlegal; [|lia..]. destruct Hlegal as [Hta [Htb Htc]].
  unfold apply_move_fast, move_delta.
  rewrite (clear_bit_sub state a) by (lia || assumption).
  assert (H1b : Z.testbit (state - Z.shiftl 1 a) b = true).
  { rewrite <- clear_bit_sub by (lia || assumption).
    rewrite Z.land_spec, Z.lnot_spec, testbit_shiftl_1, Htb by lia.
    destruct (Z.eqb_spec a b); [contradiction | reflexivity]. }
  rewrite (clear_bit_sub _ b) by (lia || assumption).
  assert (H2c : Z.testbit (state - Z.shiftl 1 a - Z.shiftl 1 b) c = false).
  { rewrite <- (clear_bit_sub _ b), <- (clear_bit_sub state a) by (lia || assumption).
    rewrite !Z.land_spec, Htc. reflexivity. }
  rewrite set_bit_add by (lia || assumption). lia.
Qed.

(** *** The loop with the twins is the loop of the code *)

Section EngineExt.

Variables canonicalize1 canonicalize2 : Z -> Z.
Variables heuristic1 heuristic2 : Z -> num.
Variables moves1 moves2 : Z -> list Move.
Variables apply1 apply2 : Z -> Move -> Z.
Variable use_symmetry : bool.

Hypothesis canonicalize_ext : forall x, canonicalize1 x = canonicalize2 x.
Hypothesis heuristic_ext : forall x, heuristic1 x = heuristic2 x.
Hypothesis moves_ext : forall x, moves1 x = moves2 x.
Hypothesis apply_ext : forall x m, In m (moves2 x) -> apply1 x m = apply2 x m.

Lemma relax_ext st g s m :
  In m (moves2 st) ->
  relax canonicalize1 heuristic1 apply1 use_symmetry st g s m
  = relax canonicalize2 heuristic2 apply2 use_symmetry st g s m.
Proof.
  intros Hm. unfold relax.
  now rewrite (apply_ext st m Hm), canonicalize_ext, heuristic_ext.
Qed.

Lemma fold_relax_ext st g l s :
  (forall m, In m l -> In m (moves2 st)) ->
  fold_left (relax canonicalize1 heuristic1 apply1 use_symmetry st g) l s
  = fold_left (relax canonicalize2 heuristic2 apply2 use_symmetry st g) l s.
Proof.
  revert s. induction l as [|m l IH]; intros s Hl; simpl; [reflexivity|].
  rewrite relax_ext by (apply Hl; now left).
  apply IH. intros m' Hm'. apply Hl. now right.
Qed.

Lemma expand_ext el s e rest :
  expand canonicalize1 heuristic1 moves1 apply1 use_symmetry el s e rest
  = expand canonicalize2 heuristic2 moves2 apply2 use_symmetry el s e rest.
Proof.
  destruct e as [[[[f t] g] c] st]. unfold expand.
  destruct (num_ltb _ _); [reflexivity|].
  destruct (is_goal st); [reflexivity|].
  rewrite moves_ext. f_equal. apply fold_relax_ext. auto.
Qed.

Lemma step_ext s :
  step canonicalize1 heuristic1 moves1 apply1 use_symmetry s
  = step canonicalize2 heuristic2 moves2 apply2 use_symmetry s.
Proof.
  unfold step. destruct (open_set s) as [|e rest]; [reflexivity|].
  now rewrite expand_ext.
Qed.

Lemma steps_ext n s :
  steps canonicalize1 heuristic1 moves1 apply1 use_symmetry n s
  = steps canonicalize2 heuristic2 moves2 apply2 use_symmetry n s.
Proof.
  revert s. induction n as [|n IH]; intros s; simpl; [reflexivity|].
  rewrite step_ext. destruct (step _ _ _ _ _ s); [apply IH | reflexivity].
Qed.

Lemma init_search_ext :
  init_search canonicalize1 heuristic1 use_symmetry
  = init_search canonicalize2 heuristic2 use_symmetry.
Proof. unfold init_search. now rewrite canonicalize_ext, heuristic_ext. Qed.

End EngineExt.

Lemma fast_init_eq us : fast_init us = solve_init us.
Proof.
  apply init_search_ext; [apply canonicalize_fast_eq | apply heuristic_fast_eq].
Qed.

Lemma fast_expand_eq us el s e rest :
  expand canonicalize_fast heuristic_fast get_valid_moves_masked apply_move_table
         us el s e rest
  = expand canonicalize heuristic_advanced get_valid_moves_fast apply_move_fast
           us el s e rest.
Proof.
  apply expand_ext.
  - apply canonicalize_fast_eq.
  - apply heuristic_fast_eq.
  - apply get_valid_moves_masked_eq.
  - apply apply_move_table_eq.
Qed.

Lemma fast_steps_eq us n s : fast_steps us n s = solve_steps us n s.
Proof.
  apply steps_ext.
  - apply canonicalize_fast_eq.
  - apply heuristic_fast_eq.
  - apply get_valid_moves_masked_eq.
  - apply apply_move_table_eq.
Qed.

(** ** Priority keys *)

Lemma num_eqb_eq a b : num_eqb a b = true <-> a = b.
Proof.
  destruct a as [x|], b as [y|]; simpl; try (split; (discriminate || reflexivity)).
  rewrite Z.eqb_eq. split; [now intros -> | now intros [= ->]].
Qed.

Lemma num_ltb_total a b : num_eqb a b = false -> num_ltb a b = negb (num_ltb b a).
Proof.
  destruct a as [x|], b as [y|]; simpl; try reflexivity; try discriminate.
  intros H. apply Z.eqb_neq in H.
  destruct (Z.ltb_spec x y), (Z.ltb_spec y x); simpl; (reflexivity || lia).
Qed.

(** Between two entries with different [(f, tie-break)] pairs, the order of
    the tuples is the order of the pairs. *)
Lemma entry_ltb_by_key e1 e2 :
  entry_key e1 <> entry_key e2 ->
  entry_ltb e1 e2 = key_ltb e1 e2 /\ key_ltb e1 e2 = negb (key_ltb e2 e1).
Proof.
  destruct e1 as [[[[f1 t1] g1] c1] s1], e2 as [[[[f2 t2] g2] c2] s2].
  unfold entry_key, entry_ltb, key_ltb. intros Hne.
  destruct (num_eqb f1 f2) eqn:Hf; cbn [negb].
  - apply num_eqb_eq in Hf. subst f2.
    assert (Hf' : num_eqb f1 f1 = true) by now apply num_eqb_eq.
    rewrite Hf'. cbn [negb].
    destruct (num_eqb t1 t2) eqn:Ht.
    + apply num_eqb_eq in Ht. subst t2. now contradiction Hne.
    + cbn [negb]. split; [reflexivity|].
      assert (Ht' : num_eqb t2 t1 = false).
      { destruct (num_eqb t2 t1) eqn:E; [|reflexivity].
        apply num_eqb_eq in E. subst t2.
        assert (num_eqb t1 t1 = true) by now apply num_eqb_eq. congruence. }
      rewrite Ht'. cbn [negb]. now apply num_ltb_total.
  - split; [reflexivity|].
    assert (Hf' : num_eqb f2 f1 = false).
    { destruct (num_eqb f2 f1) eqn:E; [|reflexivity].
      apply num_eqb_eq in E. subst f2.
      assert (num_eqb f1 f1 = true) by now apply num_eqb_eq. congruence. }
    rewrite Hf'. cbn [negb]. now apply num_ltb_total.
Qed.

Lemma num_ltb_irrefl a : num_ltb a a = false.
Proof. destruct a; simpl; [apply Z.ltb_irrefl | reflexivity]. Qed.

(** The lexicographic order on [(f, tie-break, g)], spelled out. *)
Lemma key_ltb_spec f1 t1 g1 c1 s1 f2 t2 g2 c2 s2 :
  key_ltb (f1, t1, g1, c1, s1) (f2, t2, g2, c2, s2) = true <->
  num_ltb f1 f2 = true \/
  (f1 = f2 /\ (num_ltb t1 t2 = true \/ (t1 = t2 /\ g1 < g2))).
Proof.
  unfold key_ltb.
  destruct (num_eqb f1 f2) eqn:Hf; cbn [negb].
  - apply num_eqb_eq in Hf. subst f2. rewrite num_ltb_irrefl.
    destruct (num_eqb t1 t2) eqn:Ht; cbn [negb].
    + apply num_eqb_eq in Ht. subst t2. rewrite num_ltb_irrefl, Z.ltb_lt.
      split; [tauto|]. intros [H|[_ [H|[_ H]]]]; (discriminate || assumption).
    + split; [tauto|]. intros [H|[_ [H|[H _]]]]; try (discriminate || assumption).
      subst t2. assert (num_eqb t1 t1 = true) by now apply num_eqb_eq. congruence.
  - split; [tauto|]. intros [H|[H _]]; [assumption|].
    subst f2. assert (num_eqb f1 f1 = true) by now apply num_eqb_eq. congruence.
Qed.

Lemma key_ltb_irrefl e : key_ltb e e = false.
Proof.
  destruct e as [[[[f t] g] c] s].
  destruct (key_ltb (f, t, g, c, s) (f, t, g, c, s)) eqn:H; [|reflexivity].
  apply key_ltb_spec in H. rewrite !num_ltb_irrefl in H.
  destruct H as [H|[_ [H|[_ H]]]]; (discriminate || lia).
Qed.

Lemma key_ltb_trans e1 e2 e3 :
  key_ltb e1 e2 = true -> key_ltb e2 e3 = true -> key_ltb e1 e3 = true.
Proof.
  destruct e1 as [[[[f1 t1] g1] c1] s1], e2 as [[[[f2 t2] g2] c2] s2],
    e3 as [[[[f3 t3] g3] c3] s3].
  rewrite !key_ltb_spec.
  intros [H12|[-> H12]] [H23|[-> H23]].
  - left. eapply num_ltb_transitive; eassumption.
  - now left.
  - now left.
  - right. split; [reflexivity|].
    destruct H12 as [H12|[-> H12]], H23 as [H23|[-> H23]].
    + left. eapply num_ltb_transitive; eassumption.
    + now left.
    + now left.
    + right. split; [reflexivity | lia].
Qed.

Lemma num_code_inj a b : num_code a = num_code b -> a = b.
Proof. destruct a, b; simpl; congruence. Qed.

Lemma distinct_keys_sound l :
  forall seen, distinct_keys seen l = true ->
  List.NoDup (map key_code l) /\ forall e, In e l -> seen !! key_code e = None.
Proof.
  induction l as [|e l IH]; intros seen H; simpl in *.
  - split; [constructor | tauto].
  - destruct (seen !! key_code e) eqn:Hlook; [discriminate|].
    apply IH in H. destruct H as [Hnd Hfree].
    assert (Hnew : forall e', In e' l -> key_code e' <> key_code e).
    { intros e' He' Heq. specialize (Hfree e' He').
      rewrite Heq, lookup_insert_eq in Hfree. discriminate. }
    split.
    + constructor; [|assumption].
      rewrite in_map_iff. intros [e' [Heq He']]. now apply (Hnew e' He').
    + intros e' [<-|He']; [assumption|].
      specialize (Hfree e' He'). rewrite lookup_insert_ne in Hfree; [assumption|].
      intros Heq. now apply (Hnew e' He').
Qed.

Lemma distinct_keys_NoDup l :
  distinct_keys ∅ l = true -> List.NoDup (map entry_key l).
Proof.
  intros H. apply distinct_keys_sound in H. destruct H as [Hnd _].
  apply (NoDup_map_inv (fun k : num * num => (num_code (fst k), num_code (snd k)))).
  now rewrite map_map.
Qed.

Lemma NoDup_map_neq {A B} (f : A -> B) l x y :
  List.NoDup (map f l) -> In x l -> In y l -> x <> y -> f x <> f y.
Proof.
  induction l as [|z l IH]; simpl; [tauto|].
  intros Hnd Hx Hy Hne Heq. inversion Hnd as [|? ? Hz Hnd']; subst.
  destruct Hx as [->|Hx], Hy as [->|Hy].
  - now apply Hne.
  - apply Hz. rewrite Heq. now apply in_map.
  - apply Hz. rewrite <- Heq. now apply in_map.
  - now apply (IH Hnd' Hx Hy Hne).
Qed.

Lemma move_eqb_eq m m' : move_eqb m m' = true -> m = m'.
Proof.
  destruct m as [[a b] c], m' as [[a' b'] c']. unfold move_eqb.
  rewrite !andb_true_iff, !Z.eqb_eq. intros [[-> ->] ->]. reflexivity.
Qed.

Lemma path_eqb_eq p q : path_eqb p q = true -> p = q.
Proof.
  revert q. induction p as [|m p IH]; intros [|m' q]; simpl; try discriminate.
  - reflexivity.
  - rewrite andb_true_iff. intros [Hm Hp].
    apply move_eqb_eq in Hm. apply IH in Hp. now subst.
Qed.

(** ** Pushed entries along a run *)

Section TraceFacts.

Variable canonicalize_fn : Z -> Z.
Variable heuristic_fn : Z -> num.
Variable get_valid_moves_fn : Z -> list Move.
Variable apply_move_fn : Z -> Move -> Z.
Variable use_symmetry : bool.

#[local] Abbreviation relax' := (relax canonicalize_fn heuristic_fn apply_move_fn use_symmetry).
#[local] Abbreviation expand' :=
  (expand canonicalize_fn heuristic_fn get_valid_moves_fn apply_move_fn use_symmetry).
#[local] Abbreviation iteration' :=
  (iteration canonicalize_fn heuristic_fn get_valid_moves_fn apply_move_fn use_symmetry).
#[local] Abbreviation astar_loop' :=
  (astar_loop canonicalize_fn heuristic_fn get_valid_moves_fn apply_move_fn use_symmetry).
#[local] Abbreviation step' :=
  (step canonicalize_fn heuristic_fn get_valid_moves_fn apply_move_fn use_symmetry).
#[local] Abbreviation steps' :=
  (steps canonicalize_fn heuristic_fn get_valid_moves_fn apply_move_fn use_symmetry).

Lemma step_expand s s' :
  step' s = Some s' ->
  exists e rest, open_set s = e :: rest /\ expand' 0 s e rest = Continue s'.
Proof.
  unfold step. destruct (open_set s) as [|e rest]; [discriminate|].
  destruct (expand' 0 s e rest) as [s0| |] eqn:Hex; try discriminate.
  intros [= <-]. now exists e, rest.
Qed.

(** Each push increments the counter by one and adds one entry to the
    history; the history only grows. *)
Lemma relax_pushed st g s m :
  exists l, pushed (relax' st g s m) = l ++ pushed s.
Proof.
  unfold relax. destruct (num_ltb _ _); [|now exists []].
  cbv zeta. cbn [pushed]. eexists [_]. reflexivity.
Qed.

Lemma fold_relax_pushed st g l s :
  exists l', pushed (fold_left (relax' st g) l s) = l' ++ pushed s.
Proof.
  revert s. induction l as [|m l IH]; intros s; simpl; [now exists []|].
  destruct (IH (relax' st g s m)) as [l1 H1].
  destruct (relax_pushed st g s m) as [l2 H2].
  exists (l1 ++ l2). now rewrite H1, H2, app_assoc.
Qed.

Lemma step_pushed s s' : step' s = Some s' -> exists l, pushed s' = l ++ pushed s.
Proof.
  intros H. apply step_expand in H. destruct H as [e [rest [_ Hex]]].
  destruct e as [[[[f t] g] c] st]. apply expand_Continue in Hex.
  destruct Hex as [->|[_ ->]]; [now exists []|].
  apply (fold_relax_pushed st g _ (expanding s rest st)).
Qed.

Lemma steps_pushed n s s' : steps' n s = Some s' -> exists l, pushed s' = l ++ pushed s.
Proof.
  revert s. induction n as [|n IH]; intros s; simpl.
  - intros [= <-]. now exists [].
  - destruct (step' s) as [s1|] eqn:H1; [|discriminate].
    intros H. apply IH in H. destruct H as [l Hl].
    apply step_pushed in H1. destruct H1 as [l1 Hl1].
    exists (l ++ l1). now rewrite Hl, Hl1, app_assoc.
Qed.

Lemma relax_log_ok st g s m :
  log_ok heuristic_fn s -> log_ok heuristic_fn (relax' st g s m).
Proof.
  intros [Hc [Hopen Hties]]. unfold relax.
  destruct (num_ltb _ _); [|repeat split; assumption].
  unfold log_ok. cbv zeta. cbn [tie_breaker pushed open_set length].
  split; [lia|]. split.
  - intros e He. apply In_heappush in He. destruct He as [->|He]; [now left|].
    right. now apply Hopen.
  - cbn [ties_built]. split; [|assumption].
    right. unfold built_tie. now rewrite <- Hc.
Qed.

Lemma fold_relax_log_ok st g l s :
  log_ok heuristic_fn s -> log_ok heuristic_fn (fold_left (relax' st g) l s).
Proof.
  revert s. induction l as [|m l IH]; intros s H; simpl; [assumption|].
  apply IH, relax_log_ok, H.
Qed.

Lemma iteration_log_ok tl mn el s s' :
  log_ok heuristic_fn s -> iteration' tl mn el s = Continue s' -> log_ok heuristic_fn s'.
Proof.
  intros [Hc [Hopen Hties]] Hit. apply iteration_Continue in Hit.
  destruct Hit as [e [rest [Hs Hex]]]. destruct e as [[[[f t] g] c] st].
  assert (Hrest : forall e, In e rest -> In e (pushed s)).
  { intros e He. apply Hopen. rewrite Hs. now right. }
  apply expand_Continue in Hex. destruct Hex as [->|[_ ->]].
  - repeat split; assumption.
  - apply fold_relax_log_ok. repeat split; assumption.
Qed.

Lemma init_search_log_ok :
  log_ok heuristic_fn (init_search canonicalize_fn heuristic_fn use_symmetry).
Proof.
  split; [reflexivity|]. split; [intros e He; exact He|].
  cbn. split; [now left | exact I].
Qed.

Lemma fold_relax_nodes_expanded st g l s :
  nodes_expanded (fold_left (relax' st g) l s) = nodes_expanded s.
Proof.
  revert s. induction l as [|m l IH]; intros s; simpl; [reflexivity|].
  rewrite IH. unfold relax. now destruct (num_ltb _ _).
Qed.

Lemma step_nodes_expanded s s' :
  step' s = Some s' -> nodes_expanded s' <= nodes_expanded s + 1.
Proof.
  intros H. apply step_expand in H. destruct H as [e [rest [_ Hex]]].
  destruct e as [[[[f t] g] c] st]. apply expand_Continue in Hex.
  destruct Hex as [->|[_ ->]]; [cbn; lia|].
  rewrite fold_relax_nodes_expanded. cbn. lia.
Qed.

(** With a clock that stays within the time budget and a node budget that
    is not reached, the loop makes the passes of [steps]. *)
Lemma astar_loop_after_steps clock tl mn n :
  (forall k, clock k - clock 0%nat <= tl) ->
  forall s s' k fuel,
    nodes_expanded s + Z.of_nat n <= mn + 1 ->
    steps' n s = Some s' ->
    astar_loop' (n + fuel) clock tl mn k s = astar_loop' fuel clock tl mn (k + n) s'.
Proof.
  intros Hclock. induction n as [|n IH]; intros s s' k fuel Hmn Hsteps.
  - injection Hsteps as <-. now rewrite Nat.add_0_r.
  - cbn [steps] in Hsteps. destruct (step' s) as [s1|] eqn:H1; [|discriminate].
    cbn [Nat.add astar_loop].
    rewrite (step_iteration _ _ _ _ _ tl mn _ s s1 H1) by (auto; lia).
    replace (k + S n)%nat with (S k + n)%nat by lia.
    apply IH; [|assumption].
    apply step_nodes_expanded in H1. lia.
Qed.

End TraceFacts.

(** ** Complete runs *)

(** Both complete runs, evaluated. *)
Lemma complete_run_symmetry : complete_run true = true.
Proof. vm_cast_no_check (eq_refl true). Qed.

Lemma complete_run_no_symmetry : complete_run false = true.
Proof. vm_cast_no_check (eq_refl true). Qed.

Lemma iteration_expand use_symmetry tl mn el s e rest :
  open_set s = e :: rest -> el <= tl -> nodes_expanded s <= mn ->
  solve_iteration use_symmetry tl mn el s
  = expand canonicalize heuristic_advanced get_valid_moves_fast apply_move_fast
           use_symmetry el s e rest.
Proof.
  intros Hs Hel Hmn. unfold solve_iteration, iteration, heappop. rewrite Hs.
  destruct (Z.ltb_spec tl el); [lia|].
  destruct (Z.ltb_spec mn (nodes_expanded s)); [lia | reflexivity].
Qed.

(** What the evaluation says about the loop of the code: after
    [run_length] passes the frontier is not empty, the pushed keys are
    pairwise different, and the next pass returns [SOLUTION]. *)
Lemma complete_run_facts use_symmetry :
  exists s e rest,
    solve_steps use_symmetry (run_length use_symmetry) (solve_init use_symmetry) = Some s /\
    List.NoDup (map entry_key (pushed s)) /\
    nodes_expanded s = Z.of_nat (run_length use_symmetry) /\
    open_set s = e :: rest /\
    forall el,
      expand canonicalize heuristic_advanced get_valid_moves_fast apply_move_fast
             use_symmetry el s e rest
      = Return (Some SOLUTION, success_stats use_symmetry el).
Proof.
  assert (H : complete_run use_symmetry = true).
  { destruct use_symmetry; [apply complete_run_symmetry | apply complete_run_no_symmetry]. }
  unfold complete_run in H. rewrite fast_steps_eq, fast_init_eq in H.
  destruct (solve_steps use_symmetry _ _) as [s|]; [|discriminate].
  rewrite !andb_true_iff, !Z.eqb_eq in H. destruct H as [[[Hkeys Hexp] Hgen] Hret].
  destruct (open_set s) as [|e rest] eqn:Hs; [discriminate|].
  rewrite fast_expand_eq in Hret.
  exists s, e, rest. repeat split; try assumption.
  - now apply distinct_keys_NoDup.
  - intros el. destruct e as [[[[f t] g] c] st]. unfold expand in *.
    destruct (num_ltb _ _); [discriminate|].
    destruct (is_goal st) eqn:Hgoal; [|discriminate].
    destruct (reconstruct_path (came_from s) st) as [p|]; [|discriminate].
    apply path_eqb_eq in Hret. subst p.
    unfold is_goal in Hgoal. apply Z.eqb_eq in Hgoal. subst st.
    unfold success_stats. now rewrite Hexp, Hgen.
Qed.

(** A run has no more passes than the complete run, and its pushed entries
    are among those of the complete run. *)
Lemma steps_within_complete_run use_symmetry m s :
  solve_steps use_symmetry m (solve_init use_symmetry) = Some s ->
  List.NoDup (map entry_key (pushed s)).
Proof.
  intros Hm.
  destruct (complete_run_facts use_symmetry) as [sK [e [rest [HK [Hnd [_ [Hopen Hret]]]]]]].
  set (K := run_length use_symmetry) in *.
  unfold solve_steps in *.
  destruct (Nat.le_gt_cases m K) as [Hle|Hgt].
  - replace K with (m + (K - m))%nat in HK by lia.
    rewrite steps_add, Hm in HK.
    apply steps_pushed in HK. destruct HK as [l Hl].
    rewrite Hl, map_app in Hnd. now apply NoDup_app_remove_l in Hnd.
  - replace m with (K + S (m - K - 1))%nat in Hm by lia.
    rewrite steps_add, HK in Hm. cbn [steps] in Hm.
    unfold step in Hm. rewrite Hopen, Hret in Hm. discriminate.
Qed.

(** C9.  In every call of [astar_solve] and after any number of passes:
    the tie-break counter has been incremented once for every entry pushed
    after the first one, and the tie-break value of each of these entries is
    built from the value the counter had at its push; no two entries pushed
    so far share the same [(f, tie-break)] pair; so the order of the tuples
    on the pushed entries (the frontier holds pushed entries only) is the
    lexicographic order on [(f, tie-break, g)], which is irreflexive,
    transitive and, between any two different pushed entries, puts one of
    them strictly first: the state components never decide. *)
Theorem pushed_keys_distinct (clock : nat -> Z) (time_limit_sec : Z)
    (greedy_bias use_symmetry : bool) (max_nodes : Z) (n : nat) :
  let s := astar_solve_state n clock time_limit_sec greedy_bias use_symmetry max_nodes in
  tie_breaker s + 1 = Z.of_nat (length (pushed s)) /\
  ties_built heuristic_advanced (pushed s) /\
  (forall e, In e (open_set s) -> In e (pushed s)) /\
  List.NoDup (map entry_key (pushed s)) /\
  (forall e1 e2, In e1 (pushed s) -> In e2 (pushed s) -> e1 <> e2 ->
     entry_ltb e1 e2 = key_ltb e1 e2 /\ key_ltb e1 e2 = negb (key_ltb e2 e1)) /\
  (forall e, key_ltb e e = false) /\
  (forall e1 e2 e3,
     key_ltb e1 e2 = true -> key_ltb e2 e3 = true -> key_ltb e1 e3 = true).
Proof.
  intros s.
  assert (Hlog : log_ok heuristic_advanced s).
  { unfold s, astar_solve_state. apply astar_trace_invariant.
    - intros el s0 s'. apply iteration_log_ok.
    - apply init_search_log_ok. }
  assert (Hnd : List.NoDup (map entry_key (pushed s))).
  { destruct (astar_trace_steps canonicalize heuristic_advanced get_valid_moves_fast
                apply_move_fast use_symmetry clock time_limit_sec max_nodes n 1
                (solve_init use_symmetry)) as [m [_ Hm]].
    exact (steps_within_complete_run use_symmetry m _ Hm). }
  destruct Hlog as [Hcount [Hopen Hties]].
  split; [assumption|]. split; [assumption|]. split; [assumption|].
  split; [assumption|]. split; [|split].
  - intros e1 e2 H1 H2 Hne. apply entry_ltb_by_key.
    now apply (NoDup_map_neq entry_key (pushed s)).
  - apply key_ltb_irrefl.
  - apply key_ltb_trans.
Qed.

(** The call with the default budgets and a clock that stands still
    returns [SOLUTION], 31 moves, after 8990 expansions. *)
Lemma astar_solve_complete :
  astar_solve (S (run_length true)) (fun _ => 0) 300 true true 2000000
  = Some (Some SOLUTION, success_stats true 0).
Proof.
  destruct (complete_run_facts true) as [sK [e [rest [HK [_ [Hexp [Hopen Hret]]]]]]].
  assert (Hclock : forall k : nat, (fun _ : nat => 0) k - (fun _ : nat => 0) 0%nat <= 300)
    by (intros k; cbv beta; lia).
  unfold astar_solve. replace (S (run_length true)) with (run_length true + 1)%nat by lia.
  fold (solve_init true).
  rewrite (astar_loop_after_steps canonicalize heuristic_advanced get_valid_moves_fast
             apply_move_fast true (fun _ => 0) 300 2000000 (run_length true) Hclock
             (solve_init true) sK 1%nat 1%nat); [| |exact HK].
  - cbn [astar_loop].
    change (iteration canonicalize heuristic_advanced get_valid_moves_fast
              apply_move_fast true) with (solve_iteration true).
    rewrite (iteration_expand true 300 2000000 _ sK e rest Hopen)
      by (rewrite ?Hexp; unfold run_length; lia).
    rewrite Hret. reflexivity.
  - unfold run_length, solve_init. cbn [init_search nodes_expanded]. lia.
Qed.

Lemma astar_solve_success_path_witness :
  exists path final,
    Some SOLUTION = Some path /\
    play initial_state path = Some final /\
    is_goal final = true /\
    moves (success_stats true 0) = Some (Z.of_nat (length path)).
Proof.
  apply (astar_solve_success_path (S (run_length true)) (fun _ => 0) 300 true true
           2000000 (Some SOLUTION) (success_stats true 0)).
  - apply astar_solve_complete.
  - reflexivity.
Defined.

(** The end-to-end example of the specification: the path found has 31
    moves and leads from the starting position to the single centre peg. *)
Example solution_plays :
  length SOLUTION = 31%nat /\ play initial_state SOLUTION = Some (Z.shiftl 1 CENTER_IDX).
Proof. split; vm_compute; reflexivity. Qed.

(** * Further properties *)

Import Runner.

(** ** The board *)

Lemma is_valid_cell_spec r c :
  is_valid_cell r c = true <->
  0 <= r <= 6 /\ 0 <= c <= 6 /\ (2 <= r <= 4 \/ 2 <= c <= 4).
Proof.
  unfold is_valid_cell, N.
  destruct (Z.leb_spec 0 r), (Z.ltb_spec r 7), (Z.leb_spec 0 c), (Z.ltb_spec c 7);
    cbn [andb negb]; try (split; [discriminate | lia]).
  destruct (Z.ltb_spec r 2), (Z.ltb_spec c 2), (Z.ltb_spec 4 c), (Z.ltb_spec 4 r);
    cbn [andb orb]; split; (discriminate || lia || reflexivity).
Qed.

(** X1.  The cross-shaped board is invariant under the eight coordinate
    transforms of [apply_symmetry]: a cell is valid exactly when its image
    is, for all integer coordinates and every transform index. *)
Theorem is_valid_cell_sym_map (sym r c : Z) :
  is_valid_cell (fst (sym_map sym (r, c))) (snd (sym_map sym (r, c))) = is_valid_cell r c.
Proof.
  apply eq_true_iff_eq. rewrite !is_valid_cell_spec. unfold sym_map, N.
  destruct (sym =? 0); [cbn; lia|].
  destruct (sym =? 1); [cbn; lia|].
  destruct (sym =? 2); [cbn; lia|].
  destruct (sym =? 3); [cbn; lia|].
  destruct (sym =? 4); [cbn; lia|].
  destruct (sym =? 5); [cbn; lia|].
  destruct (sym =? 6); cbn; lia.
Qed.

(** X2.  The runner's own copy of the validity test agrees with the board's
    on all integer coordinates. *)
Theorem runner_is_valid_cell_agrees (r c : Z) : _is_valid_cell r c = is_valid_cell r c.
Proof.
  apply eq_true_iff_eq. rewrite is_valid_cell_spec. unfold _is_valid_cell.
  destruct (Z.leb_spec 0 r), (Z.ltb_spec r 7), (Z.leb_spec 0 c), (Z.ltb_spec c 7);
    cbn [andb negb]; try (split; [discriminate | lia]).
  destruct (Z.ltb_spec r 2), (Z.ltb_spec c 2), (Z.ltb_spec 4 c), (Z.ltb_spec 4 r);
    cbn [andb orb]; split; (discriminate || lia || reflexivity).
Qed.

Lemma POS_TO_IDX_list :
  POS_TO_IDX = list_to_map (map (fun ip : Z * (Z * Z) => (snd ip, fst ip))
                                (enumerate IDX_TO_POS)).
Proof. vm_compute. reflexivity. Qed.

Lemma POS_TO_IDX_entries rc j :
  POS_TO_IDX !! rc = Some j -> In (j, rc) (enumerate IDX_TO_POS).
Proof.
  rewrite POS_TO_IDX_list. intros H. apply elem_of_list_to_map_2 in H.
  apply list_elem_of_In in H. apply in_map_iff in H.
  destruct H as [[j' rc'] [Heq Hin]]. cbn in Heq. now injection Heq as -> ->.
Qed.

Lemma enumerate_checked {A} (P : Z * A -> bool) (l : list A) :
  forallb P (enumerate l) = true -> forall ix, In ix (enumerate l) -> P ix = true.
Proof. intros H. now apply forallb_forall. Qed.

(** X3.  [POS_TO_IDX] and [IDX_TO_POS] are inverse to each other, and the
    keys of [POS_TO_IDX] are exactly the valid cells: looking a cell up
    after [is_valid_cell] never raises [KeyError], and the membership test
    in [apply_symmetry] never fails after the validity test. *)
Theorem POS_TO_IDX_round_trip (r c j : Z) :
  (POS_TO_IDX !! (r, c) = Some j <->
   0 <= j /\ IDX_TO_POS !! Z.to_nat j = Some (r, c)) /\
  (is_Some (POS_TO_IDX !! (r, c)) <-> is_valid_cell r c = true).
Proof.
  split; [split|split].
  - intros H. apply POS_TO_IDX_entries in H.
    apply (enumerate_checked
             (fun ix => (0 <=? fst ix)
                        && bool_decide (IDX_TO_POS !! Z.to_nat (fst ix) = Some (snd ix))))
      in H; [|vm_compute; reflexivity].
    cbn [fst snd] in H. apply andb_true_iff in H. destruct H as [H1 H2].
    apply bool_decide_eq_true in H2. split; [lia | assumption].
  - intros [Hj Hl].
    assert (Hlt : 0 <= j < 33).
    { apply lookup_lt_Some in Hl. change (length IDX_TO_POS) with 33%nat in Hl. lia. }
    assert (Hall : forallb (fun i => match IDX_TO_POS !! Z.to_nat i with
                                     | Some rc => bool_decide (POS_TO_IDX !! rc = Some i)
                                     | None => false
                                     end) (range 33) = true)
      by (vm_compute; reflexivity).
    apply (range_forallb _ _ Hall) in Hlt. rewrite Hl in Hlt.
    now apply bool_decide_eq_true in Hlt.
  - intros [i Hi]. apply POS_TO_IDX_entries in Hi.
    apply (enumerate_checked (fun ix => is_valid_cell (fst (snd ix)) (snd (snd ix)))) in Hi;
      [exact Hi | vm_compute; reflexivity].
  - intros Hv. apply is_valid_cell_spec in Hv.
    assert (Hall : forallb (fun r' => forallb (fun c' =>
                      implb (is_valid_cell r' c')
                            (bool_decide (is_Some (POS_TO_IDX !! (r', c')))))
                    (range 7)) (range 7) = true) by (vm_compute; reflexivity).
    assert (Hr : 0 <= r < 7) by lia. assert (Hc : 0 <= c < 7) by lia.
    pose proof (range2_forallb _ _ _ Hall r c Hr Hc) as H. cbv beta in H.
    apply is_valid_cell_spec in Hv. rewrite Hv in H. cbn [implb] in H.
    now apply bool_decide_eq_true in H.
Qed.

(** ** The bit helpers *)

Lemma testbit_bit_set mask bit n :
  0 <= bit -> Z.testbit (bit_set mask bit) n = Z.testbit mask n || (bit =? n).
Proof.
  intros Hb. unfold bit_set. destruct (Z.neg_nonneg_cases n) as [Hn|Hn].
  - rewrite !Z.testbit_neg_r by assumption. cbn. symmetry. apply Z.eqb_neq. lia.
  - rewrite Z.lor_spec, testbit_shiftl_1 by assumption. reflexivity.
Qed.

Lemma testbit_bit_clear mask bit n :
  0 <= bit -> Z.testbit (bit_clear mask bit) n = Z.testbit mask n && negb (bit =? n).
Proof.
  intros Hb. unfold bit_clear. destruct (Z.neg_nonneg_cases n) as [Hn|Hn].
  - rewrite !Z.testbit_neg_r by assumption. reflexivity.
  - rewrite Z.land_spec, Z.lnot_spec, testbit_shiftl_1 by assumption. reflexivity.
Qed.

(** X4.  [bit_set] and [bit_clear] at a bit position [bit >= 0] of any
    integer mask: the bit is set, respectively cleared, every other bit is
    kept, each operation is idempotent, and each undoes the other on a mask
    where it changed the bit. *)
Theorem bit_set_bit_clear (mask bit : Z) :
  0 <= bit ->
  Z.testbit (bit_set mask bit) bit = true /\
  Z.testbit (bit_clear mask bit) bit = false /\
  (forall n, n <> bit ->
     Z.testbit (bit_set mask bit) n = Z.testbit mask n /\
     Z.testbit (bit_clear mask bit) n = Z.testbit mask n) /\
  bit_set (bit_set mask bit) bit = bit_set mask bit /\
  bit_clear (bit_clear mask bit) bit = bit_clear mask bit /\
  (Z.testbit mask bit = false -> bit_clear (bit_set mask bit) bit = mask) /\
  (Z.testbit mask bit = true -> bit_set (bit_clear mask bit) bit = mask).
Proof.
  intros Hb.
  assert (Hne : forall n, n <> bit -> (bit =? n) = false) by (intros; apply Z.eqb_neq; lia).
  repeat split.
  - rewrite testbit_bit_set, Z.eqb_refl by assumption. apply orb_true_r.
  - rewrite testbit_bit_clear, Z.eqb_refl by assumption. apply andb_false_r.
  - rewrite testbit_bit_set, Hne by assumption. apply orb_false_r.
  - rewrite testbit_bit_clear, Hne by assumption. apply andb_true_r.
  - apply Z.bits_inj'. intros n _. rewrite !testbit_bit_set by assumption.
    now destruct (Z.testbit mask n), (bit =? n).
  - apply Z.bits_inj'. intros n _. rewrite !testbit_bit_clear by assumption.
    now destruct (Z.testbit mask n), (bit =? n).
  - intros Hm. apply Z.bits_inj'. intros n _.
    rewrite testbit_bit_clear, testbit_bit_set by assumption.
    destruct (Z.eqb_spec bit n) as [<-|_]; [rewrite Hm; reflexivity|].
    now destruct (Z.testbit mask n).
  - intros Hm. apply Z.bits_inj'. intros n _.
    rewrite testbit_bit_set, testbit_bit_clear by assumption.
    destruct (Z.eqb_spec bit n) as [<-|_]; [rewrite Hm; reflexivity|].
    now destruct (Z.testbit mask n).
Qed.

Lemma bit_set_bit_clear_witness :
  Z.testbit (bit_set 5 1) 1 = true /\
  Z.testbit (bit_clear 5 1) 1 = false /\
  (forall n, n <> 1 ->
     Z.testbit (bit_set 5 1) n = Z.testbit 5 n /\
     Z.testbit (bit_clear 5 1) n = Z.testbit 5 n) /\
  bit_set (bit_set 5 1) 1 = bit_set 5 1 /\
  bit_clear (bit_clear 5 1) 1 = bit_clear 5 1 /\
  (Z.testbit 5 1 = false -> bit_clear (bit_set 5 1) 1 = 5) /\
  (Z.testbit 5 1 = true -> bit_set (bit_clear 5 1) 1 = 5).
Proof. apply (bit_set_bit_clear 5 1). lia. Defined.

(** ** States and moves *)

Lemma popcount_zero s : 0 <= s -> popcount s = 0 -> s = 0.
Proof.
  intros Hs H. destruct s as [|p|p]; [reflexivity| |lia].
  exfalso. cbn in H.
  assert (Hpos : forall q, 1 <= pos_popcount q) by (induction q; cbn; lia).
  specialize (Hpos p). lia.
Qed.

Lemma clear_bit_nonneg s i : 0 <= s -> 0 <= Z.land s (Z.lnot (Z.shiftl 1 i)).
Proof. intros Hs. apply Z.land_nonneg. now left. Qed.

Lemma popcount_two_bits s a b :
  0 <= s -> 0 <= a -> 0 <= b -> a <> b ->
  Z.testbit s a = true -> Z.testbit s b = true -> 2 <= popcount s.
Proof.
  intros Hs Ha Hb Hab Hta Htb.
  pose proof (popcount_clear_bit a s Ha Hs Hta) as H1.
  assert (Htb' : Z.testbit (Z.land s (Z.lnot (Z.shiftl 1 a))) b = true).
  { rewrite Z.land_spec, Z.lnot_spec, testbit_shiftl_1, Htb by assumption.
    cbn. apply negb_true_iff, Z.eqb_neq. assumption. }
  pose proof (popcount_clear_bit b _ Hb (clear_bit_nonneg s a Hs) Htb') as H2.
  pose proof (popcount_nonneg (Z.land (Z.land s (Z.lnot (Z.shiftl 1 a)))
                                      (Z.lnot (Z.shiftl 1 b)))).
  lia.
Qed.

Lemma bounded_by_bits s n :
  0 <= n -> 0 <= s -> (forall i, n <= i -> Z.testbit s i = false) -> s < 2 ^ n.
Proof.
  intros Hn Hs Hbits.
  assert (Heq : s = Z.land s (Z.ones n)).
  { apply Z.bits_inj'. intros i Hi. rewrite Z.land_spec.
    destruct (Z.lt_ge_cases i n) as [Hlt|Hge].
    - rewrite Z.ones_spec_low by lia. now rewrite andb_true_r.
    - rewrite Hbits by assumption. reflexivity. }
  rewrite Heq, Z.land_ones by assumption.
  apply Z.mod_pos_bound. now apply Z.pow_pos_nonneg.
Qed.

(** X5.  A board with at most one peg is a dead end: [get_valid_moves_fast]
    returns the empty list on every non-negative state with at most one bit
    set. *)
Theorem get_valid_moves_fast_dead_end (state : Z) :
  0 <= state -> popcount state <= 1 -> get_valid_moves_fast state = [].
Proof.
  intros Hs Hp. unfold get_valid_moves_fast. apply filter_none.
  intros [[a b] c] Hin. destruct (is_legal state (a, b, c)) eqn:Hl; [|reflexivity].
  exfalso. apply VALID_MOVES_well_formed, move_well_formed_inv in Hin.
  destruct Hin as [[Ha [Hb Hc]] [Hab _]].
  apply is_legal_bits in Hl; try lia. destruct Hl as [Hta [Htb _]].
  pose proof (popcount_two_bits state a b Hs (proj1 Ha) (proj1 Hb) Hab Hta Htb). lia.
Qed.

Lemma get_valid_moves_fast_dead_end_witness : get_valid_moves_fast 65536 = [].
Proof. apply (get_valid_moves_fast_dead_end 65536); [lia | vm_compute; discriminate]. Defined.

Lemma apply_move_fast_bound state m :
  0 <= state < 2 ^ 33 -> In m VALID_MOVES -> 0 <= apply_move_fast state m < 2 ^ 33.
Proof.
  intros Hs Hin. split; [apply apply_move_fast_nonneg; [lia | assumption]|].
  pose proof (apply_move_fast_nonneg state m (proj1 Hs) Hin) as Hnn.
  destruct m as [[a b] c].
  apply VALID_MOVES_well_formed, move_well_formed_inv in Hin.
  destruct Hin as [[Ha [Hb Hc]] _].
  apply bounded_by_bits; [lia | assumption |].
  intros i Hi. rewrite testbit_apply_move_fast by lia.
  rewrite (testbit_high state 33 i Hs Hi). cbn.
  apply Z.eqb_neq. lia.
Qed.

(** X6.  A catalogue move applied to a state over the 33 cells gives a state
    over the 33 cells: no bit at position 33 or above is ever set, whether
    or not the move is legal in the state. *)
Theorem apply_move_fast_in_range (state : Z) (move : Move) :
  0 <= state < 2 ^ 33 -> In move VALID_MOVES ->
  0 <= apply_move_fast state move < 2 ^ 33.
Proof. apply apply_move_fast_bound. Qed.

Lemma apply_move_fast_in_range_witness :
  0 <= apply_move_fast 7 (0, 3, 8) < 2 ^ 33.
Proof.
  apply (apply_move_fast_in_range 7 (0, 3, 8)); [lia | vm_compute; tauto].
Defined.

(** X7.  On non-negative states [is_goal] holds exactly when one peg is on
    the board and the centre cell is occupied. *)
Theorem is_goal_one_peg_at_centre (state : Z) :
  0 <= state ->
  (is_goal state = true <-> popcount state = 1 /\ Z.testbit state CENTER_IDX = true).
Proof.
  intros Hs. unfold is_goal. split.
  - intros H. apply Z.eqb_eq in H. subst state. split; reflexivity.
  - intros [Hp Ht]. apply Z.eqb_eq.
    assert (Hc : 0 <= CENTER_IDX) by (vm_compute; discriminate).
    pose proof (popcount_clear_bit CENTER_IDX state Hc Hs Ht) as H.
    rewrite Hp in H.
    apply popcount_zero in H; [|apply clear_bit_nonneg, Hs].
    apply Z.bits_inj'. intros n Hn.
    apply (f_equal (fun z => Z.testbit z n)) in H.
    rewrite Z.land_spec, Z.lnot_spec, Z.bits_0 in H by assumption.
    rewrite !testbit_shiftl_1 in * by assumption.
    destruct (Z.eqb_spec CENTER_IDX n) as [Heq|_]; [now rewrite <- Heq|].
    cbn in H. now rewrite andb_true_r in H.
Qed.

Lemma is_goal_one_peg_at_centre_witness :
  is_goal 65536 = true <-> popcount 65536 = 1 /\ Z.testbit 65536 CENTER_IDX = true.
Proof. apply (is_goal_one_peg_at_centre 65536). lia. Defined.

Lemma VALID_MOVES_checked (P : Move -> bool) :
  forallb P VALID_MOVES = true -> forall m, In m VALID_MOVES -> P m = true.
Proof. intros H. now apply forallb_forall. Qed.

Lemma existsb_eqb_In x l : existsb (Z.eqb x) l = true -> In x l.
Proof.
  intros H. apply existsb_exists in H. destruct H as [y [Hy Heq]].
  apply Z.eqb_eq in Heq. now subst y.
Qed.

Lemma existsb_move_eqb_In m l : existsb (move_eqb m) l = true -> In m l.
Proof.
  intros H. apply existsb_exists in H. destruct H as [m' [Hm Heq]].
  apply move_eqb_eq in Heq. now subst m'.
Qed.

(** A check of every catalogue move by evaluation. *)
Ltac check_catalogue P Hin H :=
  assert (H : forallb P VALID_MOVES = true) by (vm_compute; reflexivity);
  apply (VALID_MOVES_checked _ H) in Hin; clear H.

(** X8.  The move catalogue: every catalogue move has the jumped cell next
    to its source and its destination next to the jumped cell in [ADJ], its
    reverse is a catalogue move too, source and destination determine the
    jumped cell, and the runner's [_mid] of the source and destination
    coordinates is the jumped cell's coordinates. *)
Theorem VALID_MOVES_geometry (src over dst : Z) :
  In (src, over, dst) VALID_MOVES ->
  In over (default [] (Board.ADJ !! Z.to_nat src)) /\
  In dst (default [] (Board.ADJ !! Z.to_nat over)) /\
  In (dst, over, src) VALID_MOVES /\
  (forall over', In (src, over', dst) VALID_MOVES -> over' = over) /\
  exists a b c,
    IDX_TO_POS !! Z.to_nat src = Some a /\
    IDX_TO_POS !! Z.to_nat over = Some b /\
    IDX_TO_POS !! Z.to_nat dst = Some c /\
    _mid a c = b.
Proof.
  intros Hin. split; [|split; [|split; [|split]]].
  - check_catalogue
      (fun m : Move => let '(a, b, c) := m in
                       existsb (Z.eqb b) (default [] (Board.ADJ !! Z.to_nat a))) Hin H.
    now apply existsb_eqb_In.
  - check_catalogue
      (fun m : Move => let '(a, b, c) := m in
                       existsb (Z.eqb c) (default [] (Board.ADJ !! Z.to_nat b))) Hin H.
    now apply existsb_eqb_In.
  - check_catalogue
      (fun m : Move => let '(a, b, c) := m in existsb (move_eqb (c, b, a)) VALID_MOVES)
      Hin H.
    now apply existsb_move_eqb_In.
  - intros over' Hin'. pose proof Hin as Hin0.
    check_catalogue
      (fun m : Move => forallb (fun m' : Move =>
                                  implb ((fst (fst m) =? fst (fst m')) && (snd m =? snd m'))
                                        (snd (fst m') =? snd (fst m)))
                               VALID_MOVES) Hin H.
    rewrite forallb_forall in Hin. specialize (Hin _ Hin').
    cbn [fst snd] in Hin. rewrite !Z.eqb_refl in Hin. cbn in Hin.
    now apply Z.eqb_eq in Hin.
  - check_catalogue
      (fun m : Move => let '(a, b, c) := m in
                       match IDX_TO_POS !! Z.to_nat a, IDX_TO_POS !! Z.to_nat b,
                             IDX_TO_POS !! Z.to_nat c with
                       | Some pa, Some pb, Some pc =>
                           (fst (_mid pa pc) =? fst pb) && (snd (_mid pa pc) =? snd pb)
                       | _, _, _ => false
                       end) Hin H.
    destruct (IDX_TO_POS !! Z.to_nat src) as [pa|]; [|discriminate].
    destruct (IDX_TO_POS !! Z.to_nat over) as [pb|]; [|discriminate].
    destruct (IDX_TO_POS !! Z.to_nat dst) as [pc|]; [|discriminate].
    exists pa, pb, pc. repeat split.
    apply andb_true_iff in Hin. destruct Hin as [H1 H2].
    apply Z.eqb_eq in H1, H2. destruct (_mid pa pc), pb. cbn in *. congruence.
Qed.

Lemma VALID_MOVES_geometry_witness :
  In 9 (default [] (Board.ADJ !! Z.to_nat 4)) /\
  In 16 (default [] (Board.ADJ !! Z.to_nat 9)) /\
  In (16, 9, 4) VALID_MOVES /\
  (forall over', In (4, over', 16) VALID_MOVES -> over' = 9) /\
  exists a b c,
    IDX_TO_POS !! Z.to_nat 4 = Some a /\
    IDX_TO_POS !! Z.to_nat 9 = Some b /\
    IDX_TO_POS !! Z.to_nat 16 = Some c /\
    _mid a c = b.
Proof. apply (VALID_MOVES_geometry 4 9 16). vm_compute. tauto. Defined.

(** ** The search loop *)

Lemma popcount_image s v :
  0 <= s < 2 ^ 33 -> In v (images s) -> popcount v = popcount s.
Proof.
  intros Hs Hv. apply In_images in Hv. destruct Hv as [k [Hk ->]].
  rewrite apply_symmetry_perm by assumption. rewrite popcount_set_bits.
  - rewrite length_map. symmetry. apply popcount_occupied, Hs.
  - apply NoDup_map_in; [|apply NoDup_occupied].
    intros x y Hx Hy. apply In_occupied in Hx, Hy. apply sym_perm_inj; tauto.
  - apply perm_occupied_nonneg, Hk.
Qed.

Lemma canonicalize_image s :
  0 <= s < 2 ^ 33 -> exists k, 0 <= k < 8 /\ canonicalize s = apply_symmetry s k.
Proof.
  intros Hs. destruct (canonicalize_spec s) as [[Heq|Hin] _].
  - exists 0. split; [lia|]. now rewrite apply_symmetry_identity.
  - now apply In_images in Hin.
Qed.

Lemma state_key_facts us st :
  0 <= st < 2 ^ 33 ->
  0 <= state_key us st < 2 ^ 33 /\ popcount (state_key us st) = popcount st.
Proof.
  intros Hst. destruct us; cbn [state_key]; [|tauto].
  destruct (canonicalize_image st Hst) as [k [Hk ->]]. split.
  - now apply apply_symmetry_bound.
  - apply popcount_image; [assumption|]. apply In_images. now exists k.
Qed.

Lemma popcount_testbit s i : 0 <= s -> 0 <= i -> Z.testbit s i = true -> 1 <= popcount s.
Proof.
  intros Hs Hi Ht. pose proof (popcount_clear_bit i s Hi Hs Ht).
  pose proof (popcount_nonneg (Z.land s (Z.lnot (Z.shiftl 1 i)))). lia.
Qed.

Lemma legal_successor st m :
  0 <= st < 2 ^ 33 -> In m (get_valid_moves_fast st) ->
  0 <= apply_move_fast st m < 2 ^ 33 /\
  popcount (apply_move_fast st m) = popcount st - 1 /\
  1 <= popcount (apply_move_fast st m).
Proof.
  intros Hst Hm. apply get_valid_moves_fast_In in Hm. destruct Hm as [Hcat Hleg].
  pose proof (apply_move_fast_bound st m Hst Hcat) as Hb.
  destruct m as [[a b] c].
  apply VALID_MOVES_well_formed, move_well_formed_inv in Hcat.
  destruct Hcat as [[Ha [Hb' Hc]] [Hab [Hac Hbc]]].
  apply is_legal_bits in Hleg; try lia. destruct Hleg as [Hta [Htb Htc]].
  split; [assumption|]. split.
  - apply popcount_apply_move_fast; try assumption; lia.
  - apply (popcount_testbit _ c); [lia | lia |].
    rewrite testbit_apply_move_fast by lia. rewrite Z.eqb_refl. apply orb_true_r.
Qed.

Section SearchInvariant.

Variable use_symmetry : bool.

#[local] Abbreviation relax' :=
  (relax canonicalize heuristic_advanced apply_move_fast use_symmetry).
#[local] Abbreviation expand' :=
  (expand canonicalize heuristic_advanced get_valid_moves_fast apply_move_fast use_symmetry).
#[local] Abbreviation iteration' :=
  (iteration canonicalize heuristic_advanced get_valid_moves_fast apply_move_fast
             use_symmetry).

Lemma relax_search_ok st g s m :
  0 <= st < 2 ^ 33 -> g = 32 - popcount st -> In m (get_valid_moves_fast st) ->
  search_ok use_symmetry s -> search_ok use_symmetry (relax' st g s m).
Proof.
  intros Hst Hg Hm Hok.
  destruct (legal_successor st m Hst Hm) as [Hrange [Hpop Hpos]].
  destruct (state_key_facts use_symmetry _ Hrange) as [_ Hkey].
  pose proof Hok as [Hent [Hgs [Hsize [Hcnt Hbest]]]].
  unfold relax. fold (state_key use_symmetry (apply_move_fast st m)).
  set (nb := apply_move_fast st m) in *.
  set (nc := state_key use_symmetry nb) in *.
  unfold g_score_get.
  destruct (g_score s !! nc) as [v|] eqn:Hlook.
  - apply Hgs in Hlook. cbn [num_ltb].
    destruct (Z.ltb_spec (g + 1) v); [lia | exact Hok].
  - cbn [num_ltb]. cbv zeta.
    unfold search_ok.
    cbn [open_set g_score nodes_generated nodes_expanded best_num_pieces].
    split; [|split; [|split; [|split]]].
    + intros e He. apply In_heappush in He. destruct He as [->|He].
      * cbn [entry_ok]. repeat split; try (assumption || lia || reflexivity).
        apply lookup_insert_eq.
      * specialize (Hent e He). destruct e as [[[[f t] g0] c] st0].
        cbn [entry_ok] in *. destruct Hent as [H1 [H2 [H3 [H4 [H5 H6]]]]].
        repeat split; try (assumption || lia).
        rewrite lookup_insert_ne; [assumption|]. intros <-. congruence.
    + intros c v Hc. destruct (decide (nc = c)) as [<-|Hne].
      * rewrite lookup_insert_eq in Hc. injection Hc as <-. lia.
      * rewrite lookup_insert_ne in Hc by assumption. now apply Hgs.
    + rewrite map_size_insert_None by assumption. lia.
    + rewrite length_heappush. lia.
    + assumption.
Qed.

Lemma fold_relax_search_ok st g l s :
  0 <= st < 2 ^ 33 -> g = 32 - popcount st ->
  (forall m, In m l -> In m (get_valid_moves_fast st)) ->
  search_ok use_symmetry s -> search_ok use_symmetry (fold_left (relax' st g) l s).
Proof.
  intros Hst Hg. revert s. induction l as [|m l IH]; intros s Hl Hok; [assumption|].
  cbn [fold_left]. apply IH.
  - intros m' Hm'. apply Hl. now right.
  - apply relax_search_ok; try assumption. apply Hl. now left.
Qed.

(** With its cost in the best-cost map, an entry is not discarded. *)
Lemma expand_fresh el s f t g c st rest :
  g_score s !! c = Some g ->
  expand' el s (f, t, g, c, st) rest
  = if is_goal st
    then match reconstruct_path (came_from s) st with
         | None => Hang
         | Some path =>
             Return (Some path,
                     {| status := success;
                        expanded := nodes_expanded s + 1;
                        generated := nodes_generated s;
                        elapsed_sec := el;
                        best_pieces := None;
                        moves := Some (Z.of_nat (length path));
                        final_pieces := Some (popcount st) |})
         end
    else Continue (fold_left (relax' st g) (get_valid_moves_fast st) (expanding s rest st)).
Proof.
  intros Hg. unfold expand, g_score_get. rewrite Hg. cbn [num_ltb].
  rewrite Z.ltb_irrefl. reflexivity.
Qed.

Lemma expand_search_ok el s e rest s' :
  search_ok use_symmetry s -> open_set s = e :: rest ->
  expand' el s e rest = Continue s' ->
  search_ok use_symmetry s' /\ nodes_expanded s' = nodes_expanded s + 1.
Proof.
  intros Hok Hopen Hex. pose proof Hok as [Hent [Hgs [Hsize [Hcnt Hbest]]]].
  assert (He : entry_ok use_symmetry (g_score s) e) by (apply Hent; rewrite Hopen; now left).
  destruct e as [[[[f t] g] c] st]. cbn [entry_ok] in He.
  destruct He as [Hst [Hpos [Hg [Hc [Hf Hlook]]]]].
  rewrite (expand_fresh _ _ _ _ _ _ _ _ Hlook) in Hex.
  destruct (is_goal st).
  { destruct (reconstruct_path (came_from s) st); discriminate. }
  injection Hex as <-. split; [|now rewrite fold_relax_nodes_expanded].
  apply fold_relax_search_ok; try assumption; [auto|].
  unfold search_ok, expanding.
  cbn [open_set g_score nodes_generated nodes_expanded best_num_pieces].
  rewrite Hopen in Hent, Hcnt. cbn [length] in Hcnt.
  split; [|split; [|split; [|split]]]; try assumption.
  - intros e He. apply Hent. now right.
  - lia.
  - destruct (Z.ltb_spec (popcount st) (best_num_pieces s)); lia.
Qed.

Lemma iteration_search_ok tl mn el s s' :
  search_ok use_symmetry s -> iteration' tl mn el s = Continue s' ->
  search_ok use_symmetry s'.
Proof.
  intros Hok Hit. apply iteration_Continue in Hit.
  destruct Hit as [e [rest [Hopen Hex]]].
  now apply (expand_search_ok el s e rest s' Hok Hopen).
Qed.

Lemma init_search_ok : search_ok use_symmetry (solve_init use_symmetry).
Proof.
  assert (Hs : 0 <= initial_state < 2 ^ 33) by (rewrite initial_state_value; lia).
  destruct (state_key_facts use_symmetry initial_state Hs) as [_ Hkey].
  unfold search_ok, solve_init, init_search.
  fold (state_key use_symmetry initial_state).
  cbn [open_set g_score nodes_generated nodes_expanded best_num_pieces].
  rewrite initial_state_popcount.
  split; [|split; [|split; [|split]]].
  - intros e [<-|[]]. cbn [entry_ok]. rewrite initial_state_popcount.
    generalize (heuristic_advanced initial_state) as h. intros h.
    split; [exact Hs|]. split; [lia|]. split; [lia|]. split; [reflexivity|].
    split; [destruct h; reflexivity | apply lookup_singleton_eq].
  - intros c v Hc. apply lookup_singleton_Some in Hc. destruct Hc as [<- <-].
    rewrite Hkey, initial_state_popcount. lia.
  - rewrite map_size_singleton. reflexivity.
  - reflexivity.
  - lia.
Qed.

End SearchInvariant.
